(** * RemoteDownloadManager: chunked SFTP download and listing cache

    A shallow embedding of the transfer engine of [download-manager.py]
    ([SFTPConnectionManager.download_file], its nested [download_chunk],
    [SFTPConnectionManager.list_directory]) and of [CacheManager.get] /
    [CacheManager.set], with the properties the design document states
    about them.

    Python integers are [Z]; [//] is floor division and raises on a zero
    divisor; a float is a binary64 number [mant * 2^expo], and arithmetic
    on floats rounds; byte strings are [list byte]; the local disk is a
    finite map from path to contents, and each operation on it may raise;
    an exception is represented by its message ([str(e)] is all the code
    ever uses of it). *)

From stdpp Require Import gmap strings list list_numbers fin_maps pretty sorting.
From Stdlib Require Import ZArith QArith Qpower Lia Lqa Permutation.
From Stdlib Require Import Strings.Byte Ascii.
From Stdlib Require Import Floats.SpecFloat.

Local Open Scope Z_scope.

(** * Part I: the program *)

(** ** Chunk planning

    [download_file], lines 231-236 and 309-311:
<<
    if file_size < 10 * 1024 * 1024: ...whole-file get...
    chunk_size = file_size // chunks
    for i in range(chunks):
        start = i * chunk_size
        end = file_size if i == chunks - 1 else (i + 1) * chunk_size
        thread = threading.Thread(target=download_chunk, args=(i, start, end))
>> *)

Module Planner.

Definition small_file_threshold : Z := 10 * 1024 * 1024.

(** The argument triple [(i, start, end)] handed to one worker thread. *)
Record ChunkRange := mkRange { chunk_idx : Z; chunk_start : Z; chunk_end : Z }.

Definition range_len (r : ChunkRange) : Z := chunk_end r - chunk_start r.

(** One iteration of the [for i in range(chunks)] loop. *)
Definition chunk_args (file_size chunks chunk_size i : Z) : ChunkRange :=
  {| chunk_idx := i;
     chunk_start := i * chunk_size;
     chunk_end := if decide (i = chunks - 1) then file_size
                  else (i + 1) * chunk_size |}.

(** All iterations; [range(chunks)] is empty when [chunks <= 0]. *)
Definition thread_args (file_size chunks chunk_size : Z) : list ChunkRange :=
  chunk_args file_size chunks chunk_size <$> seqZ 0 chunks.

(** Python's [file_size // chunks]: floor division, [ZeroDivisionError]
    on a zero divisor. *)
Definition floordiv (a b : Z) : option Z :=
  if decide (b = 0) then None else Some (a `div` b).

(** The ranges of the parallel path, when the division succeeds. *)
Definition chunk_plan (file_size chunks : Z) : option (list ChunkRange) :=
  chunk_size ← floordiv file_size chunks;
  Some (thread_args file_size chunks chunk_size).

(** The lengths of the planned ranges, in order. *)
Definition plan_lengths (file_size chunks : Z) : option (list Z) :=
  match chunk_plan file_size chunks with
  | Some p => Some (range_len <$> p)
  | None => None
  end.

(** Properties of a list of ranges, read as half-open intervals
    [[chunk_start, chunk_end)]. *)
Definition in_range (r : ChunkRange) (x : Z) : Prop :=
  chunk_start r ≤ x < chunk_end r.

Definition contiguous (p : list ChunkRange) : Prop :=
  ∀ (i : nat) r r', p !! i = Some r → p !! S i = Some r' →
    chunk_end r = chunk_start r'.

Definition non_overlapping (p : list ChunkRange) : Prop :=
  ∀ (i j : nat) r r', (i < j)%nat → p !! i = Some r → p !! j = Some r' →
    chunk_end r ≤ chunk_start r'.

Definition well_formed (p : list ChunkRange) : Prop :=
  ∀ (i : nat) r, p !! i = Some r →
    chunk_idx r = Z.of_nat i ∧ chunk_start r ≤ chunk_end r.

Definition covers (p : list ChunkRange) (total : Z) : Prop :=
  ∀ x, (∃ r, r ∈ p ∧ in_range r x) ↔ 0 ≤ x < total.

Definition sum_list_Z (l : list Z) : Z := foldr Z.add 0 l.

End Planner.

(** ** Interleavings

    The runs of a set of threads, each a fixed list of atomic actions:
    an interleaving keeps every thread's own order and nothing else. *)

Module Interleave.

Inductive interleave {A : Type} : list (list A) → list A → Prop :=
| interleave_done pend :
    Forall (λ l, l = []) pend → interleave pend []
| interleave_step pend (t : nat) x l run :
    pend !! t = Some (x :: l) →
    interleave (<[t := l]> pend) run →
    interleave pend (x :: run).

End Interleave.

(** ** The transfer engine

    [download_chunk] runs in one thread per chunk.  A worker's control flow
    depends only on what its own transport does, so a worker is embedded as
    the sequence of atomic actions it performs on the state it shares with
    the coordinator and its siblings; the threads are then interleaved by a
    schedule. *)

Module Transfer.
Import Planner.

(** [str(e)] of a raised exception. *)
Definition exn := string.

(** What one worker's own SSH/SFTP session does (the remote side is an
    external collaborator): each step either succeeds or raises. *)
Record transport := mkTransport {
  key_loaded : bool;                 (* some key class parsed the key file *)
  connect_result : option exn;       (* [ssh.connect(...)] *)
  open_sftp_result : option exn;     (* [ssh.open_sftp()] and the tuning *)
  remote_open_result : option exn;   (* [sftp.file(remote_path, "r")], [seek] *)
  local_open_result : option exn;    (* [open(temp_file, "wb")] *)
  reads : list (exn + list byte)     (* successive [remote_file.read(n)];
                                        past the end of the list: [b""];
                                        [inl e]: the read, or the write of
                                        what it returned, raises [e] *)
}.

(** Atomic actions of a worker on shared state. *)
Inductive event :=
| EvConnect (idx : Z)                        (* session of chunk [idx] is up *)
| EvClose (idx : Z)                          (* [sftp.close(); ssh.close()] *)
| EvError (msg : string)                     (* [errors.append(msg)] *)
| EvTemp (name : string)                     (* [temp_files.append(name)] *)
| EvCreate (name : string)                   (* [open(name, "wb")] *)
| EvWrite (name : string) (data : list byte) (* [local_file.write(data)] *)
| EvProgress (delta : Z).                    (* the [with lock:] block *)

Definition temp_name (local_path : string) (idx : Z) : string :=
  local_path +:+ ".part" +:+ pretty idx.

Definition chunk_error (idx : Z) (e : string) : event :=
  EvError ("Chunk " +:+ pretty idx +:+ ": " +:+ e).

(** The [while bytes_read < bytes_to_read] loop.  Returns the actions
    performed and the exception that ended the loop, if one did. *)
Fixpoint read_loop (temp_file : string) (bytes_to_read bytes_read : Z)
    (rs : list (exn + list byte)) : list event * option exn :=
  match rs with
  | [] => ([], None)
  | r :: rs' =>
    if decide (bytes_read < bytes_to_read) then
      match r with
      | inl e => ([], Some e)
      | inr data =>
        let chunk_data :=
          take (Z.to_nat (65536 `min` (bytes_to_read - bytes_read))) data in
        match chunk_data with
        | [] => ([], None)                       (* [if not chunk_data: break] *)
        | _ :: _ =>
          let '(evs, r) :=
            read_loop temp_file bytes_to_read
                      (bytes_read + Z.of_nat (length chunk_data)) rs' in
          (EvWrite temp_file chunk_data
             :: EvProgress (Z.of_nat (length chunk_data)) :: evs, r)
        end
      end
    else ([], None)
  end.

(** [download_chunk(chunk_idx, start, end)]. *)
Definition download_chunk (t : transport) (local_path : string)
    (idx start end_ : Z) : list event :=
  if key_loaded t then
    match connect_result t with
    | Some e => [chunk_error idx e]
    | None =>
      EvConnect idx ::
      match open_sftp_result t with
      | Some e => [chunk_error idx e]
      | None =>
        let temp_file := temp_name local_path idx in
        EvTemp temp_file ::
        match remote_open_result t with
        | Some e => [chunk_error idx e]
        | None =>
          match local_open_result t with
          | Some e => [chunk_error idx e]
          | None =>
            EvCreate temp_file ::
            let '(evs, r) := read_loop temp_file (end_ - start) 0 (reads t) in
            evs ++ match r with
                   | Some e => [chunk_error idx e]
                   | None => [EvClose idx]
                   end
          end
        end
      end
    end
  else [chunk_error idx "Key load failed"].

(** The world outside [download_file]. *)
Record world := mkWorld {
  fs : gmap string (list byte);      (* local disk: path to contents *)
  console : list string;             (* lines printed, oldest first *)
  progress : list (Z * Z);           (* calls of [progress_callback] *)
  open_sessions : gset Z             (* worker sessions still connected *)
}.

(** The locals of one parallel [download_file] call that its threads
    share: [errors], [temp_files], [downloaded_bytes[0]]. *)
Record shared := mkShared {
  errors : list string;
  temp_files : list string;
  downloaded_bytes : Z
}.

Definition with_fs (f : gmap string (list byte) → gmap string (list byte))
    (w : world) : world :=
  mkWorld (f (fs w)) (console w) (progress w) (open_sessions w).

Definition print (line : string) (w : world) : world :=
  mkWorld (fs w) (console w ++ [line]) (progress w) (open_sessions w).

Definition report (p : Z * Z) (w : world) : world :=
  mkWorld (fs w) (console w) (progress w ++ [p]) (open_sessions w).

Definition with_sessions (f : gset Z → gset Z) (w : world) : world :=
  mkWorld (fs w) (console w) (progress w) (f (open_sessions w)).

(** Appending to an open file; the file exists once opened. *)
Definition append_file (name : string) (data : list byte)
    (m : gmap string (list byte)) : gmap string (list byte) :=
  <[name := default [] (m !! name) ++ data]> m.

Section engine.
(** [progress_callback] is optional; [file_size] is the [stat] result. *)
Variables (has_callback : bool) (file_size : Z).

Definition apply_event (st : world * shared) (ev : event) : world * shared :=
  let '(w, sh) := st in
  match ev with
  | EvConnect idx => (with_sessions (union {[idx]}) w, sh)
  | EvClose idx => (with_sessions (λ s, s ∖ {[idx]}) w, sh)
  | EvError msg =>
      (w, mkShared (errors sh ++ [msg]) (temp_files sh) (downloaded_bytes sh))
  | EvTemp name =>
      (w, mkShared (errors sh) (temp_files sh ++ [name]) (downloaded_bytes sh))
  | EvCreate name => (with_fs (insert name []) w, sh)
  | EvWrite name data => (with_fs (append_file name data) w, sh)
  | EvProgress delta =>
      let total := downloaded_bytes sh + delta in
      ((if has_callback then report (total, file_size) w else w),
       mkShared (errors sh) (temp_files sh) total)
  end.

Definition run_events (evs : list event) (st : world * shared) : world * shared :=
  foldl apply_event st evs.

(** The threads run concurrently.  [sched] names, step by step, the
    thread whose next atomic action happens; naming a finished thread is
    a no-op.  [thread.join()] on every thread lets all of them finish,
    so what the schedule leaves over is run to completion. *)
Fixpoint run_threads (sched : list nat) (pending : list (list event))
    (st : world * shared) : world * shared :=
  match sched with
  | [] => foldl (λ s evs, run_events evs s) st pending
  | t :: sched' =>
    match pending !! t with
    | Some (ev :: evs) =>
        run_threads sched' (<[t := evs]> pending) (apply_event st ev)
    | _ => run_threads sched' pending st
    end
  end.
End engine.

(** What the coordinator's own connection, the workers' sessions and the
    local disk do. *)
Record get_outcome := mkGet {
  get_exn : option exn;               (* raised by [sftp_client.get] *)
  get_written : option (list byte);   (* contents it left at [local_path] *)
  get_reports : list (Z * Z)          (* its calls of the callback *)
}.

(** What the local disk does to the reassembly step: the destination is
    opened and closed once, and each chunk file is read, written out and
    removed once, so those answers are indexed by chunk. *)
Record disk := mkDisk {
  open_output_result : option exn;        (* [open(local_path, "wb")] *)
  open_chunk_result : Z → option exn;     (* [open(temp_file, "rb")] and
                                             [chunk.read()], the file being
                                             there *)
  write_result : Z → option (exn * nat);  (* [output.write(...)]: raises
                                             after that many bytes have
                                             reached the destination *)
  remove_result : Z → option exn;         (* [os.remove(temp_file)] *)
  close_output_result : option (exn * nat)
                                          (* leaving [with open(local_path,
                                             "wb")]: the flush or the close
                                             raises, that many bytes of
                                             the output being in the file *)
}.

(** A disk on which nothing raises. *)
Definition sound_disk : disk :=
  mkDisk None (λ _, None) (λ _, None) (λ _, None) None.

(** No operation of the reassembly of [chunks] chunks raises. *)
Definition no_fault (d : disk) (chunks : Z) : Prop :=
  open_output_result d = None ∧
  close_output_result d = None ∧
  ∀ i, 0 ≤ i < chunks →
    open_chunk_result d i = None ∧ write_result d i = None ∧
    remove_result d i = None.

Record remote := mkRemote {
  stat_result : exn + Z;              (* [stat(remote_path).st_size] *)
  get_result : get_outcome;           (* [sftp_client.get(...)] *)
  worker_transport : Z → transport;   (* the session worker [i] opens *)
  local_disk : disk                   (* the disk under the reassembly *)
}.

Definition ZeroDivisionError : exn := "integer division or modulo by zero".

Definition FileNotFoundError (path : string) : exn :=
  "[Errno 2] No such file or directory: '" +:+ path +:+ "'".

(** The reassembly loop: [output.write(chunk.read()); os.remove(temp_file)]
    for each index in turn, the destination being open already.  A missing
    chunk file raises, and so may the reading, the writing and the removal;
    the loop ends at the first exception, and what was written before it
    stays in the output. *)
Fixpoint reassemble (d : disk) (local_path : string) (idxs : list Z)
    (m : gmap string (list byte)) : gmap string (list byte) * option exn :=
  match idxs with
  | [] => (m, None)
  | i :: rest =>
    let temp_file := temp_name local_path i in
    match m !! temp_file with
    | None => (m, Some (FileNotFoundError temp_file))
    | Some data =>
      match open_chunk_result d i with
      | Some e => (m, Some e)
      | None =>
        match write_result d i with
        | Some (e, n) => (append_file local_path (take n data) m, Some e)
        | None =>
          let m1 := append_file local_path data m in
          match remove_result d i with
          | Some e => (m1, Some e)
          | None => reassemble d local_path rest (delete temp_file m1)
          end
        end
      end
    end
  end.

(** Leaving the [with open(local_path, "wb")] block, whether the loop ran
    to its end or raised [e]: the output is flushed and closed, and an
    exception raised there is the one that goes on. *)
Definition close_output (d : disk) (local_path : string)
    (m : gmap string (list byte)) (e : option exn)
    : gmap string (list byte) * option exn :=
  match close_output_result d with
  | Some (e', n) => (<[local_path := take n (default [] (m !! local_path))]> m,
                     Some e')
  | None => (m, e)
  end.

(** What [download_file] returns, the world it leaves, and the thread-shared
    locals at the moment it returns ([None] where they were never created). *)
Record outcome := mkOutcome {
  result : bool;
  final : world;
  locals : option shared
}.

Definition download_failed (e : exn) (w : world) : world :=
  print ("[red]❌ Download failed: " +:+ e +:+ "[/red]") w.

Definition print_error (w : world) (error : string) : world :=
  print ("[red]" +:+ error +:+ "[/red]") w.

(** The thread bodies, in the order the threads are started. *)
Definition worker_traces (r : remote) (local_path : string)
    (file_size chunks chunk_size : Z) : list (list event) :=
  (λ a, download_chunk (worker_transport r (chunk_idx a)) local_path
                       (chunk_idx a) (chunk_start a) (chunk_end a))
  <$> thread_args file_size chunks chunk_size.

(** The small-file branch: one [sftp_client.get] of the whole file over
    the coordinator's own connection, then [return True]; an exception
    lands in the outer handler. *)
Definition whole_file_get (r : remote) (local_path : string)
    (has_callback : bool) (w : world) : outcome :=
  let g := get_result r in
  let w1 := with_fs (λ m, match get_written g with
                          | Some data => <[local_path := data]> m
                          | None => m
                          end) w in
  let w2 := if has_callback then foldl (λ w p, report p w) w1 (get_reports g)
            else w1 in
  match get_exn g with
  | Some e => mkOutcome false (download_failed e w2) None
  | None => mkOutcome true w2 None
  end.

(** [SFTPConnectionManager.download_file(remote_path, local_path,
    progress_callback, chunks)]; [connected] is [self.sftp_client] being
    set. *)
Definition download_file (connected : bool) (r : remote) (local_path : string)
    (has_callback : bool) (chunks : Z) (sched : list nat) (w : world) : outcome :=
  if connected then
    match stat_result r with
    | inl e => mkOutcome false (download_failed e w) None
    | inr file_size =>
      if decide (file_size < small_file_threshold) then
        whole_file_get r local_path has_callback w
      else
        match floordiv file_size chunks with
        | None => mkOutcome false (download_failed ZeroDivisionError w) None
        | Some chunk_size =>
          let '(w1, sh) :=
            run_threads has_callback file_size sched
              (worker_traces r local_path file_size chunks chunk_size)
              (w, mkShared [] [] 0) in
          match errors sh with
          | _ :: _ => mkOutcome false (foldl print_error w1 (errors sh)) (Some sh)
          | [] =>
            match open_output_result (local_disk r) with
            | Some e => mkOutcome false (download_failed e w1) (Some sh)
            | None =>
              let '(m, e) := reassemble (local_disk r) local_path (seqZ 0 chunks)
                                        (<[local_path := []]> (fs w1)) in
              let '(m, e) := close_output (local_disk r) local_path m e in
              let w2 := with_fs (λ _, m) w1 in
              match e with
              | Some e => mkOutcome false (download_failed e w2) (Some sh)
              | None => mkOutcome true w2 (Some sh)
              end
            end
          end
        end
    end
  else mkOutcome false w None.

(** *** Views of a run

    What a sequence of actions does to each datum, taken one datum at a
    time. *)

(** What an action contributes to each shared datum. *)
Definition error_of (ev : event) : option string :=
  match ev with EvError msg => Some msg | _ => None end.

Definition delta_of (ev : event) : Z :=
  match ev with EvProgress d => d | _ => 0 end.

Definition data_of (ev : event) : list byte :=
  match ev with EvWrite _ data => data | _ => [] end.

Definition touches (p : string) (ev : event) : Prop :=
  match ev with
  | EvCreate name | EvWrite name _ => name = p
  | _ => False
  end.

Global Instance touches_dec p ev : Decision (touches p ev).
Proof. destruct ev; simpl; apply _. Defined.

Definition on_session (idx : Z) (ev : event) : Prop :=
  match ev with
  | EvConnect i | EvClose i => i = idx
  | _ => False
  end.

Global Instance on_session_dec idx ev : Decision (on_session idx ev).
Proof. destruct ev; simpl; apply _. Defined.

(** The contents of one file, followed through the actions on it. *)
Definition file_step (cur : option (list byte)) (ev : event) : option (list byte) :=
  match ev with
  | EvCreate _ => Some []
  | EvWrite _ data => Some (default [] cur ++ data)
  | _ => cur
  end.

(** Whether one session is up, followed through the actions on it. *)
Definition session_step (cur : bool) (ev : event) : bool :=
  match ev with
  | EvConnect _ => true
  | EvClose _ => false
  | _ => cur
  end.

Definition bytes_written (evs : list event) : list byte :=
  concat (data_of <$> evs).

Definition bytes_reported (evs : list event) : Z :=
  sum_list_Z (delta_of <$> evs).

(** The actions of the read loop: writes to the chunk file and progress
    reports, nothing else. *)
Definition loop_event (temp_file : string) (ev : event) : Prop :=
  match ev with
  | EvWrite name _ => name = temp_file
  | EvProgress _ => True
  | _ => False
  end.

(** The body of thread [i]. *)
Definition worker_trace (r : remote) (local_path : string)
    (file_size chunks chunk_size i : Z) : list event :=
  let a := chunk_args file_size chunks chunk_size i in
  download_chunk (worker_transport r i) local_path i (chunk_start a) (chunk_end a).

(** Everything the workers wrote, in chunk order. *)
Definition transferred (r : remote) (local_path : string)
    (file_size chunks : Z) : list byte :=
  concat ((λ i, bytes_written
                  (worker_trace r local_path file_size chunks
                                (file_size `div` chunks) i))
          <$> seqZ 0 chunks).


End Transfer.

(** ** Concrete transfers *)

Module Scenarios.
Import Planner Transfer.

Definition empty_world : world := mkWorld ∅ [] [] ∅.

(** A session that connects and then serves the given reads. *)
Definition serving (rs : list (exn + list byte)) : transport :=
  mkTransport true None None None None rs.

(** A 10 MiB remote file whose workers all use transport [t i]. *)
Definition remote_10MiB (t : Z → transport) : remote :=
  mkRemote (inr 10485760) (mkGet None None []) t sound_disk.

(** Every worker reaches the end of data at once. *)
Definition remote_eof : remote := remote_10MiB (λ _, serving []).

(** Every worker receives three bytes and then the end of data. *)
Definition remote_three_bytes : remote :=
  remote_10MiB (λ _, serving [inr ["a"; "b"; "c"]%byte]).

(** Worker 1 loses its connection after two bytes; the others receive one
    byte and then the end of data. *)
Definition remote_reset_1 : remote :=
  remote_10MiB (λ i, if decide (i = 1)
                     then serving [inr ["a"; "b"]%byte; inl "Connection reset by peer"]
                     else serving [inr ["c"%byte]]).

(** A 1 MiB remote file, fetched whole. *)
Definition remote_1MiB : remote :=
  mkRemote (inr 1048576) (mkGet None (Some ["x"%byte]) [(1, 1)])
           (λ _, serving []) sound_disk.

End Scenarios.

(** ** Directory listing

    [SFTPConnectionManager.list_directory] and [_is_directory]. *)

Module Listing.
Import Transfer.

(** The fields of paramiko's [SFTPAttributes] the code reads. *)
Record SFTPAttributes := mkAttr {
  filename : string;
  st_size : Z;
  st_mtime : Z;
  st_mode : Z
}.

(** The [file_info] dictionary built for each entry. *)
Record file_info := mkInfo {
  name : string;
  size : Z;
  mtime : Z;
  is_dir : bool;
  mode : Z
}.

(** [stat.S_ISDIR(mode)]: [(mode & 0o170000) == 0o040000]. *)
Definition S_ISDIR (m : Z) : bool := bool_decide (Z.land m 61440 = 16384).

Definition _is_directory (attr : SFTPAttributes) : bool := S_ISDIR (st_mode attr).

Definition to_file_info (attr : SFTPAttributes) : file_info :=
  {| name := filename attr;
     size := st_size attr;
     mtime := st_mtime attr;
     is_dir := _is_directory attr;
     mode := st_mode attr |}.

(** [list.sort(key=...)] is a stable sort into ascending key order, and a
    stable sort has one possible result; insertion sort computes it. An
    element goes in front of the first one whose key is not smaller, so it
    stays in front of the later elements with the same key. *)
Fixpoint insert_by {A} (key : A → Z) (x : A) (l : list A) : list A :=
  match l with
  | [] => [x]
  | y :: l' =>
    if decide (key x ≤ key y) then x :: y :: l' else y :: insert_by key x l'
  end.

Definition sort_by_key {A} (key : A → Z) (l : list A) : list A :=
  foldr (insert_by key) [] l.

(** [list_directory(path)]: the list returned and the lines printed.
    [sftp_client] is [None] before [connect]; otherwise it carries what
    [listdir_attr] does on a path. *)
Definition list_directory
    (sftp_client : option (string → exn + list SFTPAttributes))
    (path : string) : list file_info * list string :=
  match sftp_client with
  | None => ([], [])
  | Some listdir_attr =>
    match listdir_attr path with
    | inl e => ([], ["[red]❌ Failed to list directory: " +:+ e +:+ "[/red]"])
    | inr attrs =>
        (sort_by_key (λ x, - mtime x) (to_file_info <$> attrs), [])
    end
  end.

(** A directory and a file last modified at the same second, and an older
    file. *)
Definition same_second_listing : list SFTPAttributes :=
  [ mkAttr "old.txt" 10 1700000000 33188;
    mkAttr "docs" 4096 1700000500 16877;
    mkAttr "new.txt" 20 1700000500 33188 ].

End Listing.

(** ** Clock readings

    [time.time()] returns a Python float, an IEEE 754 binary64 number, and
    [CacheManager.get] subtracts two of them. Comparing a float with an
    integer and [int] of a float are exact in Python; the subtraction
    rounds. *)

Module PyFloat.

(** A finite float: the number [mant * 2^expo]. *)
Record float := mkFloat { mant : Z; expo : Z }.

(** The binary64 numbers: 53 bits of mantissa, exponents from -1074
    (the subnormal numbers) to 971. *)
Definition is_float (x : float) : Prop :=
  Z.abs (mant x) < 2 ^ 53 ∧ -1074 ≤ expo x ≤ 971.

Definition value (x : float) : Q := (inject_Z (mant x) * 2 ^ expo x)%Q.

(** [m * 2^e] rounded to the nearest binary64 number, a tie going to the
    even mantissa: the [s] bits beyond the 53rd are dropped and the rest
    goes up when they are above half, or half with the rest odd. [None]
    where the rounded number is [2^1024] or more, which is an infinity. *)
Definition round_to_float (m e : Z) : option float :=
  let s := Z.max 0 (Z.log2 (Z.abs m) + 1 - 53) in
  let q := Z.abs m / 2 ^ s in
  let r := Z.abs m mod 2 ^ s in
  let up := (2 ^ s <? 2 * r) || ((2 ^ s =? 2 * r) && Z.odd q) in
  let q' := if up then q + 1 else q in
  if decide (q' * 2 ^ (e + s + 1074) < 2 ^ 2098)
  then Some (if decide (q' = 2 ^ 53)
             then mkFloat (Z.sgn m * 2 ^ 52) (e + s + 1)
             else mkFloat (Z.sgn m * q') (e + s))
  else None.

(** [x - y] on floats: the exact difference, rounded. *)
Definition fsub (x y : float) : option float :=
  let e := expo x `min` expo y in
  round_to_float (mant x * 2 ^ (expo x - e) - mant y * 2 ^ (expo y - e)) e.

(** The same number in the Standard Library's description of IEEE 754. *)
Definition to_spec (x : float) : spec_float :=
  match mant x with
  | 0 => S754_zero false
  | Zpos m => S754_finite false m (expo x)
  | Zneg m => S754_finite true m (expo x)
  end.

End PyFloat.

(** ** Listing cache

    [CacheManager]: one pickle file per path in the cache directory, named
    by the MD5 of the path. Clock readings are floats, and the age of an
    entry is the rounded difference of two of them. *)

Module Cache.
Import Listing PyFloat.

(** What [pickle.load] finds in a cache file. Caches written by older
    versions have no ['folder_sizes'] key. *)
Record cache_data := mkData {
  timestamp : float;
  files : list file_info;
  folder_sizes : option (gmap string Z)
}.

Inductive cache_file :=
| Pickled (data : cache_data)
| Unreadable.                    (* loading or a key lookup raises, or the
                                    timestamp is not a finite number *)

Record CacheManager := mkCache {
  cache_dir : gmap string cache_file;   (* file name to contents *)
  max_age : Z
}.

(** Python's [int(x)] on a float: truncation toward zero. *)
Definition int_of_Q (q : Q) : Z := Z.quot (Qnum q) (Zpos (Qden q)).

(** [folder_sizes or {}]. *)
Definition or_empty (folder_sizes : option (gmap string Z)) : gmap string Z :=
  match folder_sizes with
  | Some m => if decide (m = ∅) then ∅ else m
  | None => ∅
  end.

Section cache.
(** [hashlib.md5(s.encode()).hexdigest()]. *)
Variable md5_hexdigest : string → string.

Definition _get_cache_key (path : string) : string := md5_hexdigest path.

Definition cache_file_name (path : string) : string :=
  _get_cache_key path +:+ ".cache".

(** [get(path)], called when the clock reads [now]. Where the
    subtraction overflows, [age] is an infinity: the positive one is above
    [max_age], and [int] of the negative one raises. *)
Definition get (self : CacheManager) (now : float) (path : string)
    : option (list file_info * Z * gmap string Z) :=
  match cache_dir self !! cache_file_name path with
  | None => None
  | Some Unreadable => None
  | Some (Pickled data) =>
    match fsub now (timestamp data) with
    | None => None
    | Some age =>
      if Qlt_le_dec (inject_Z (max_age self)) (value age) then None
      else Some (files data, int_of_Q (value age),
                 default ∅ (folder_sizes data))
    end
  end.

(** [set(path, files, folder_sizes)], called when the clock reads [now]. *)
Definition set (self : CacheManager) (now : float) (path : string)
    (entries : list file_info) (sizes : option (gmap string Z)) : CacheManager :=
  let data := {| timestamp := now;
                 files := entries;
                 folder_sizes := Some (or_empty sizes) |} in
  {| cache_dir := <[cache_file_name path := Pickled data]> (cache_dir self);
     max_age := max_age self |}.
End cache.

End Cache.

(** ** A remote file behind the workers *)

Module RemoteFile.
Import Planner Transfer Scenarios.





End RemoteFile.

(** ** Sizes of a worker's steps *)

Module Steps.
Import Transfer.

(** A write or a progress report of between 1 and 65536 bytes; any other
    action. *)
Definition bounded_step (ev : event) : Prop :=
  match ev with
  | EvWrite _ data => 0 < Z.of_nat (length data) ≤ 65536
  | EvProgress delta => 0 < delta ≤ 65536
  | _ => True
  end.

(** Writes and progress steps come in pairs: every write is one of
    between 1 and 65536 bytes to [temp_file] and the very next action is
    the progress step for as many bytes; no progress step stands alone. *)
Fixpoint paired_steps (temp_file : string) (tr : list event) : Prop :=
  match tr with
  | [] => True
  | EvWrite name data :: EvProgress delta :: rest =>
      name = temp_file ∧
      0 < Z.of_nat (length data) ≤ 65536 ∧
      delta = Z.of_nat (length data) ∧
      paired_steps temp_file rest
  | EvWrite _ _ :: _ => False
  | EvProgress _ :: _ => False
  | _ :: rest => paired_steps temp_file rest
  end.

End Steps.

(** ** Clearing and measuring the cache

    [CacheManager.clear] and [CacheManager.get_stats]. *)

Module CacheOps.
Import Planner Listing Cache.

(** A file name matched by the pattern ["*.cache"]: the name ends with
    [.cache] ([*] also matches nothing and, in [pathlib], a leading dot). *)
Fixpoint ends_with (suffix s : string) : bool :=
  if decide (s = suffix) then true
  else match s with
       | EmptyString => false
       | String _ s' => ends_with suffix s'
       end.

(** [self.cache_dir.glob("*.cache")], in whatever order the directory is
    enumerated. *)
Definition glob_cache (self : CacheManager) : list (string * cache_file) :=
  filter (λ kv, ends_with ".cache" kv.1 = true) (map_to_list (cache_dir self)).

(** [clear()]: every matched file is unlinked. *)
Definition clear (self : CacheManager) : CacheManager :=
  {| cache_dir := foldr (λ kv m, delete kv.1 m) (cache_dir self) (glob_cache self);
     max_age := max_age self |}.

(** [get_stats()]; [st_size] is the size of a cache file on disk. *)
Definition get_stats (st_size : cache_file → Z) (self : CacheManager) : nat * Z :=
  (length (glob_cache self), sum_list_Z ((λ kv, st_size kv.2) <$> glob_cache self)).

End CacheOps.

(** ** Display helpers

    [DownloadManager.format_time]. *)

Module Display.

(** [format_time(seconds)] on an integer; [f"{n}"] is [str(n)]. *)
Definition format_time (seconds : Z) : string :=
  if decide (seconds < 60) then pretty seconds +:+ "s"
  else
    let minutes := seconds `div` 60 in
    let secs := seconds `mod` 60 in
    if decide (minutes < 60) then
      pretty minutes +:+ "m " +:+ pretty secs +:+ "s"
    else
      let hours := minutes `div` 60 in
      let mins := minutes `mod` 60 in
      pretty hours +:+ "h " +:+ pretty mins +:+ "m".

End Display.

(** ** Directory sizes

    [SFTPConnectionManager.get_directory_size]. The remote tree under the
    path: each directory carries what [listdir_attr] does on it. *)

Module DirSize.
Import Planner.

#[local] Unset Elimination Schemes.
Inductive remote_entry :=
| RFile (filename : string) (st_size : Z)
| RDir (filename : string) (listing : option (list remote_entry)).
                                   (* [None]: [listdir_attr] raises *)
#[local] Set Elimination Schemes.

(** One iteration of the loop of [scan_dir], [total_size] being the
    [nonlocal] accumulator; a directory is scanned at once, and a listing
    that raises is passed over by the inner [except]. *)
Fixpoint scan_entry (e : remote_entry) (total_size : Z) : Z :=
  match e with
  | RFile _ size => total_size + size
  | RDir _ None => total_size
  | RDir _ (Some entries) =>
      (fix scan (es : list remote_entry) (total : Z) : Z :=
         match es with
         | [] => total
         | e' :: rest => scan rest (scan_entry e' total)
         end) entries total_size
  end.

(** [scan_dir(path)] on a directory whose listing is [listing]. *)
Definition scan_dir (listing : option (list remote_entry)) (total_size : Z) : Z :=
  match listing with
  | None => total_size
  | Some entries => foldl (λ total e, scan_entry e total) total_size entries
  end.

(** [get_directory_size(remote_path)]; [connected] is [self.sftp_client]
    being set. *)
Definition get_directory_size (connected : bool)
    (listing : option (list remote_entry)) : Z :=
  if connected then scan_dir listing 0 else 0.

(** What one entry of a listing counts for. *)
Definition entry_size (connected : bool) (e : remote_entry) : Z :=
  match e with
  | RFile _ size => size
  | RDir _ listing => get_directory_size connected listing
  end.

End DirSize.

(** ** Python string operations

    The operations of [str] that the selection parser uses, on strings whose
    code points are all below 256: a character stands for its code
    point. *)

Module PyStr.

Definition code (c : ascii) : N := N_of_ascii c.

(** [c.isspace()]: the white space below U+0100. *)
Definition is_space (c : ascii) : bool :=
  let n := code c in
  ((9 <=? n) && (n <=? 13) || (28 <=? n) && (n <=? 32)
   || (n =? 133) || (n =? 160))%N.

(** A decimal digit: the only digits below U+0100 that [int] reads. *)
Definition is_decimal (c : ascii) : bool :=
  let n := code c in ((48 <=? n) && (n <=? 57))%N.

(** [c.isdigit()]: the decimal digits and the superscripts 1, 2 and 3. *)
Definition is_digit_char (c : ascii) : bool :=
  let n := code c in
  (is_decimal c || (n =? 178) || (n =? 179) || (n =? 185))%N.

(** The white space [int] skips around a literal: below U+0080 the six
    characters of C's [isspace], above it what [isspace()] accepts. *)
Definition is_int_space (c : ascii) : bool :=
  let n := code c in
  ((9 <=? n) && (n <=? 13) || (n =? 32) || (n =? 133) || (n =? 160))%N.

Fixpoint lstrip_by (f : ascii → bool) (s : string) : string :=
  match s with
  | EmptyString => EmptyString
  | String c s' => if f c then lstrip_by f s' else s
  end.

Fixpoint rstrip_by (f : ascii → bool) (s : string) : string :=
  match s with
  | EmptyString => EmptyString
  | String c s' =>
    match rstrip_by f s' with
    | EmptyString => if f c then EmptyString else String c EmptyString
    | r => String c r
    end
  end.

(** [s.strip()]. *)
Definition strip (s : string) : string :=
  rstrip_by is_space (lstrip_by is_space s).

(** [s.split(sep)] for a separator of one character. *)
Fixpoint split_on (sep : ascii) (s : string) : list string :=
  match s with
  | EmptyString => [EmptyString]
  | String c s' =>
    if decide (c = sep) then EmptyString :: split_on sep s'
    else match split_on sep s' with
         | piece :: pieces => String c piece :: pieces
         | [] => [String c EmptyString]
         end
  end.

(** [c in s] for a character [c]. *)
Fixpoint contains (c : ascii) (s : string) : bool :=
  match s with
  | EmptyString => false
  | String c' s' => bool_decide (c' = c) || contains c s'
  end.

Fixpoint all_chars (f : ascii → bool) (s : string) : bool :=
  match s with
  | EmptyString => true
  | String c s' => f c && all_chars f s'
  end.

(** [s.isdigit()]. *)
Definition isdigit (s : string) : bool :=
  match s with
  | EmptyString => false
  | _ => all_chars is_digit_char s
  end.

Definition digit_value (c : ascii) : Z := Z.of_N (code c) - 48.

(** The digits of a decimal literal, most significant first, with single
    underscores allowed between digits; [pending] says that a digit has to
    come next. *)
Fixpoint parse_digits (acc : Z) (pending : bool) (s : string) : option Z :=
  match s with
  | EmptyString => if pending then None else Some acc
  | String c s' =>
    if is_decimal c then parse_digits (10 * acc + digit_value c) false s'
    else if decide (c = "_"%char) then
      if pending then None else parse_digits acc true s'
    else None
  end.

Fixpoint count_decimal (s : string) : Z :=
  match s with
  | EmptyString => 0
  | String c s' => (if is_decimal c then 1 else 0) + count_decimal s'
  end.

Section int.
(** [sys.get_int_max_str_digits()]: 4300 unless configured, 0 for no limit;
    interpreters older than the limit behave as with 0. *)
Variable int_max_str_digits : Z.

Definition parse_unsigned (body : string) : option Z :=
  if decide (0 < int_max_str_digits ∧ int_max_str_digits < count_decimal body)
  then None
  else parse_digits 0 true body.

(** [int(s)] for a string: [None] where it raises [ValueError]. *)
Definition int_of_string (s : string) : option Z :=
  match rstrip_by is_int_space (lstrip_by is_int_space s) with
  | String "+" body => parse_unsigned body
  | String "-" body => Z.opp <$> parse_unsigned body
  | body => parse_unsigned body
  end.
End int.

End PyStr.

(** ** Selecting entries by number

    [DownloadManager.parse_selection]. *)

Module Selection.
Import PyStr.

Section selection.
Variable int_max_str_digits : Z.
Context {A : Type}.

(** [if 1 <= i <= len(files): selected.append(files[i - 1])]. *)
Definition select_index (files : list A) (i : Z) : list A :=
  if decide (1 ≤ i ≤ Z.of_nat (length files)) then
    match files !! Z.to_nat (i - 1) with
    | Some f => [f]
    | None => []
    end
  else [].

(** The body of the loop over the parts: what the part appends to
    [selected], or [None] where an exception leaves the function. *)
Definition select_part (files : list A) (part : string) : option (list A) :=
  let part := strip part in
  if contains "-" part then
    match split_on "-" part with
    | [start; end_] =>
      match int_of_string int_max_str_digits start,
            int_of_string int_max_str_digits end_ with
      | Some a, Some b => Some (seqZ a (b + 1 - a) ≫= select_index files)
      | _, _ => Some []                       (* [except: continue] *)
      end
    | _ => Some []                            (* unpacking raises *)
    end
  else if isdigit part then
    select_index files <$> int_of_string int_max_str_digits part
  else Some [].

Fixpoint select_parts (files : list A) (parts : list string)
    (selected : list A) : option (list A) :=
  match parts with
  | [] => Some selected
  | part :: parts' =>
    match select_part files part with
    | Some more => select_parts files parts' (selected ++ more)
    | None => None
    end
  end.

(** [parse_selection(choice, files)]. *)
Definition parse_selection (choice : string) (files : list A) : option (list A) :=
  select_parts files (split_on "," choice) [].
End selection.

End Selection.

(** ** Acting on a selection

    The last two branches of the dispatch in [DownloadManager.browse_files]:
    the choice [all], and any choice that is none of the commands. *)

Module Browse.
Import Listing PyStr Selection.

(** What the branch goes on to do. *)
Inductive action :=
| Navigate (name : string)            (* [current_path] gets [name] joined on *)
| Download (files : list file_info)   (* [download_files(files)] *)
| Nothing                             (* neither; nothing is printed *)
| NoFiles                             (* "No files to select" *)
| Invalid                             (* "Invalid selection" *)
| Raised.                             (* [parse_selection] raised *)

(** [choice.lower() == 'all']. *)
Definition select_all (files : list file_info) : action :=
  match filter (λ f, is_dir f = false) files with
  | [] => NoFiles
  | selected => Download selected
  end.

(** The final [else]: parse the choice and act on it. *)
Definition select_typed (int_max_str_digits : Z) (choice : string)
    (files : list file_info) : action :=
  match parse_selection int_max_str_digits choice files with
  | None => Raised
  | Some selected_files =>
    match selected_files with
    | [] => Invalid
    | first :: _ =>
      if bool_decide (length selected_files = 1%nat) && is_dir first then
        Navigate (name first)
      else
        match filter (λ f, is_dir f = false) selected_files with
        | [] => Nothing
        | files_only => Download files_only
        end
    end
  end.

End Browse.

(** ** Configuration values

    [Config.get], [get_int], [get_bool], [get_download_paths] and the
    in-memory half of [set_bool], on the dictionary [self.data]. *)

Module Settings.
Import PyStr.

(** [c.lower()] below U+0100: the Latin capitals, but not the
    multiplication sign. *)
Definition lower_char (c : ascii) : ascii :=
  let n := code c in
  if ((65 <=? n) && (n <=? 90)
      || (192 <=? n) && (n <=? 222) && negb (n =? 215))%N
  then ascii_of_N (n + 32) else c.

Fixpoint lower (s : string) : string :=
  match s with
  | EmptyString => EmptyString
  | String c s' => String (lower_char c) (lower s')
  end.

Section settings.
Variable int_max_str_digits : Z.
Implicit Types (data : gmap string string).

(** [get(key, default)]. *)
Definition get (data : gmap string string) (key default_ : string) : string :=
  default default_ (data !! key).

(** [get_int(key, default)]: [int] of the stored text, the default where
    that raises, [int(default)], the default itself, where nothing is
    stored. *)
Definition get_int data (key : string) (default_ : Z) : Z :=
  match data !! key with
  | Some text => default default_ (int_of_string int_max_str_digits text)
  | None => default_
  end.

(** [str(b)]. *)
Definition str_of_bool (b : bool) : string := if b then "True" else "False".

(** [get_bool(key, default)]. *)
Definition get_bool data (key : string) (default_ : bool) : bool :=
  let value := lower (default (str_of_bool default_) (data !! key)) in
  bool_decide (value ∈ ["true"; "yes"; "1"]).

(** The first statement of [set_bool(key, value)]; the rewriting of the
    configuration file that follows it is not part of this. *)
Definition set_bool_data data (key : string) (value : bool)
    : gmap string string :=
  <[key := if value then "true" else "false"]> data.

(** One iteration of the loop of [get_download_paths]. *)
Definition download_path data (i : Z) : list (string * string) :=
  let path := get data ("DOWNLOAD_PATH_" +:+ pretty i) "" in
  let name := get data ("PATH_" +:+ pretty i +:+ "_NAME") "" in
  match path with
  | EmptyString => []
  | _ => [((match name with
            | EmptyString => "Path " +:+ pretty i
            | _ => name
            end), path)]
  end.

(** [get_download_paths()]. *)
Definition get_download_paths data : list (string * string) :=
  seqZ 1 5 ≫= download_path data.

(** The degree [download_files] hands to [download_file]:
    [self.config.get_int('DOWNLOAD_CHUNKS', 8)]. *)
Definition configured_chunks data : Z := get_int data "DOWNLOAD_CHUNKS" 8.
End settings.

End Settings.

(** * Part II: properties *)

Module PlannerFacts.
Import Planner.

Lemma thread_args_lookup file_size chunks cs (i : nat) r :
  thread_args file_size chunks cs !! i = Some r ↔
  Z.of_nat i < chunks ∧ r = chunk_args file_size chunks cs (Z.of_nat i).
Proof.
  unfold thread_args. rewrite list_lookup_fmap, fmap_Some.
  setoid_rewrite lookup_seqZ. split.
  - intros (k & [-> Hlt] & ->). split; [done|]. f_equal.
  - intros [Hlt ->]. exists (Z.of_nat i). split; [split; [lia|done]|done].
Qed.

Lemma thread_args_length file_size chunks cs :
  length (thread_args file_size chunks cs) = Z.to_nat chunks.
Proof. unfold thread_args. by rewrite length_fmap, length_seqZ. Qed.

Section plan_facts.
Variables (file_size chunks : Z).
Hypothesis Hsize : 0 ≤ file_size.
Hypothesis Hchunks : 1 ≤ chunks.

Let cs := file_size `div` chunks.

Lemma chunk_size_bounds : 0 ≤ cs ∧ chunks * cs ≤ file_size.
Proof.
  subst cs. split.
  - apply Z.div_pos; lia.
  - apply Z.mul_div_le; lia.
Qed.

Lemma chunk_args_ordered i :
  0 ≤ i < chunks →
  chunk_start (chunk_args file_size chunks cs i)
  ≤ chunk_end (chunk_args file_size chunks cs i).
Proof.
  intros Hi. destruct chunk_size_bounds as [H0 Hle].
  unfold chunk_args; simpl. case_decide; nia.
Qed.

Lemma plan_well_formed : well_formed (thread_args file_size chunks cs).
Proof.
  intros i r [Hlt ->]%thread_args_lookup. split; [done|].
  apply chunk_args_ordered. lia.
Qed.

Lemma plan_contiguous : contiguous (thread_args file_size chunks cs).
Proof.
  intros i r r' [Hi ->]%thread_args_lookup [Hi' ->]%thread_args_lookup.
  unfold chunk_args; simpl. case_decide; lia.
Qed.

Lemma plan_non_overlapping : non_overlapping (thread_args file_size chunks cs).
Proof.
  intros i j r r' Hij [Hi ->]%thread_args_lookup [Hj ->]%thread_args_lookup.
  destruct chunk_size_bounds as [H0 Hle].
  unfold chunk_args; simpl. case_decide; nia.
Qed.

Lemma plan_covers : covers (thread_args file_size chunks cs) file_size.
Proof.
  destruct chunk_size_bounds as [H0 Hle].
  intros x. split.
  - intros (r & Hin & Hx).
    apply list_elem_of_lookup in Hin as [i [Hi ->]%thread_args_lookup].
    unfold in_range, chunk_args in Hx; simpl in Hx.
    case_decide; nia.
  - intros Hx.
    (* the index of the range holding byte [x] *)
    set (k := if decide (cs = 0) then chunks - 1
              else Z.min (x `div` cs) (chunks - 1)).
    assert (Hk : 0 ≤ k < chunks).
    { subst k. case_decide; [lia|].
      assert (0 ≤ x `div` cs) by (apply Z.div_pos; lia). lia. }
    exists (chunk_args file_size chunks cs k). split.
    + apply list_elem_of_lookup. exists (Z.to_nat k).
      apply thread_args_lookup. split; [lia|]. f_equal. lia.
    + unfold in_range, chunk_args; simpl. subst k.
      case_decide as Hcs.
      * rewrite decide_True by done. nia.
      * assert (Hdm : cs * (x `div` cs) ≤ x < cs * (x `div` cs) + cs).
        { pose proof (Z.mul_div_le x cs ltac:(lia)).
          pose proof (Z.mul_succ_div_gt x cs ltac:(lia)). lia. }
        destruct (Z.min_spec (x `div` cs) (chunks - 1)) as [[Hlt ->]|[Hge ->]].
        -- rewrite decide_False by lia. nia.
        -- rewrite decide_True by done. nia.
Qed.

Lemma plan_first r :
  thread_args file_size chunks cs !! 0%nat = Some r → chunk_start r = 0.
Proof. intros [_ ->]%thread_args_lookup. simpl. lia. Qed.

Lemma plan_last r :
  thread_args file_size chunks cs !! Z.to_nat (chunks - 1) = Some r →
  chunk_end r = file_size.
Proof.
  intros [_ ->]%thread_args_lookup. simpl.
  rewrite decide_True by lia. done.
Qed.
End plan_facts.

(** Sum of the lengths of the first [n] ranges of the loop. *)
Lemma sum_len_prefix file_size chunks cs (n : nat) :
  Z.of_nat n < chunks →
  sum_list_Z (range_len <$> (chunk_args file_size chunks cs <$> seqZ 0 (Z.of_nat n)))
  = Z.of_nat n * cs.
Proof.
  induction n as [|n IH]; intros Hn; [done|].
  rewrite seqZ_S, !fmap_app. unfold sum_list_Z in *.
  rewrite foldr_app. simpl.
  assert (Hshift : ∀ (l : list Z) a, foldr Z.add a l = foldr Z.add 0 l + a).
  { induction l as [|y l IHl]; intros a; simpl; [lia|]. rewrite IHl. lia. }
  rewrite Hshift, IH by lia.
  unfold range_len, chunk_args; simpl. rewrite decide_False by lia. lia.
Qed.

Lemma plan_sum file_size chunks :
  1 ≤ chunks →
  sum_list_Z (range_len <$> thread_args file_size chunks (file_size `div` chunks))
  = file_size.
Proof.
  intros Hc. unfold thread_args.
  set (n := Z.to_nat (chunks - 1)).
  assert (Hseq : seqZ 0 chunks = seqZ 0 (Z.of_nat n) ++ [chunks - 1]).
  { replace (chunks - 1) with (0 + Z.of_nat n) by lia.
    rewrite <- seqZ_S. f_equal. lia. }
  rewrite Hseq, !fmap_app. unfold sum_list_Z.
  rewrite foldr_app. simpl.
  assert (Hshift : ∀ (l : list Z) a, foldr Z.add a l = foldr Z.add 0 l + a).
  { induction l as [|y l IHl]; intros a; simpl; [lia|]. rewrite IHl. lia. }
  rewrite Hshift.
  pose proof (sum_len_prefix file_size chunks (file_size `div` chunks) n
                ltac:(lia)) as Hpre.
  unfold sum_list_Z in Hpre. rewrite Hpre.
  unfold range_len, chunk_args; simpl. rewrite decide_True by lia.
  replace (Z.of_nat n) with (chunks - 1) by (subst n; lia). lia.
Qed.

(** C8, as the design document has it, fails: 25 MiB split four ways
    leaves no remainder, so the lengths are not
    [6291456, 6291456, 6291456, 6291458] (which sum to 25165826). *)
Lemma plan_25MiB_is_not_as_listed :
  plan_lengths 26214400 4
  ≠ Some [6291456; 6291456; 6291456; 6291458].
Proof. vm_compute. discriminate. Qed.

(** C8, amended. For a 26214400-byte (25 MiB) file and degree 4 the plan
    has exactly four ranges, each of 6553600 bytes, which sum to the file
    size; the lengths [6291456, 6291456, 6291456, 6291458] are the plan of
    a 25165826-byte file, whose last range absorbs a remainder of 2. *)
Theorem plan_25MiB_in_four :
  plan_lengths 26214400 4
  = Some [6553600; 6553600; 6553600; 6553600] ∧
  length <$> chunk_plan 26214400 4 = Some 4%nat ∧
  sum_list_Z [6553600; 6553600; 6553600; 6553600] = 26214400 ∧
  26214400 = 25 * 1024 * 1024 ∧
  ¬ 26214400 < small_file_threshold ∧
  plan_lengths 25165826 4
  = Some [6291456; 6291456; 6291456; 6291458].
Proof. vm_compute. repeat split; try done. Qed.

End PlannerFacts.

Module InterleaveFacts.
Import Interleave.

Section interleave.
Context {A : Type}.
Implicit Types (pend : list (list A)) (l : list A).

(** Running the threads one after the other is an interleaving. *)
Lemma interleave_sequential_from done pend :
  Forall (λ l, l = []) done → interleave (done ++ pend) (concat pend).
Proof.
  revert done. induction pend as [|l pend IH]; intros done Hdone.
  - rewrite app_nil_r. by constructor.
  - induction l as [|x l IHl]; simpl.
    + replace (done ++ [] :: pend) with ((done ++ [[]]) ++ pend)
        by (by rewrite <- app_assoc).
      apply IH. apply Forall_app. split; [done|]. by constructor.
    + apply interleave_step with (t := length done) (l := l).
      * by rewrite list_lookup_middle.
      * replace (<[length done := l]> (done ++ (x :: l) :: pend))
          with (done ++ l :: pend); [done|].
        rewrite insert_app_r_alt by lia.
        by rewrite Nat.sub_diag.
Qed.

Lemma interleave_sequential pend : interleave pend (concat pend).
Proof. apply (interleave_sequential_from []). constructor. Qed.

Lemma concat_all_nil pend : Forall (λ l, l = []) pend → concat pend = [].
Proof. induction 1 as [|l pend -> _ IH]; simpl; done. Qed.

Lemma concat_insert_tail pend (t : nat) x l :
  pend !! t = Some (x :: l) →
  concat pend ≡ₚ x :: concat (<[t := l]> pend).
Proof.
  revert t. induction pend as [|l0 pend IH]; intros [|t] Ht; simplify_eq/=.
  - done.
  - rewrite (IH _ Ht). by rewrite Permutation_middle.
Qed.

(** An interleaving performs exactly the actions of the threads. *)
Lemma interleave_Permutation pend run :
  interleave pend run → run ≡ₚ concat pend.
Proof.
  induction 1 as [pend Hnil|pend t x l run Ht _ IH].
  - by rewrite concat_all_nil.
  - by rewrite (concat_insert_tail _ _ _ _ Ht), IH.
Qed.

(** Restricting attention to some actions commutes with interleaving. *)
Lemma interleave_filter (P : A → Prop) `{!∀ x, Decision (P x)} pend run :
  interleave pend run →
  interleave (filter P <$> pend) (filter P run).
Proof.
  induction 1 as [pend Hnil|pend t x l run Ht _ IH].
  - constructor. apply Forall_fmap. by eapply Forall_impl; [done|intros ? ->].
  - rewrite list_fmap_insert in IH.
    destruct (decide (P x)) as [HP|HP].
    + rewrite filter_cons_True by done.
      eapply interleave_step; [|exact IH].
      by rewrite list_lookup_fmap, Ht; simpl; rewrite filter_cons_True.
    + rewrite filter_cons_False by done.
      rewrite list_insert_id in IH; [done|].
      by rewrite list_lookup_fmap, Ht; simpl; rewrite filter_cons_False.
Qed.

(** When at most one thread has anything to do, there is one run. *)
Lemma interleave_single pend run (k : nat) l :
  interleave pend run →
  pend !! k = Some l →
  (∀ j l', j ≠ k → pend !! j = Some l' → l' = []) →
  run = l.
Proof.
  intros Hrun. revert l.
  induction Hrun as [pend Hnil|pend t x l0 run Ht _ IH]; intros l Hk Hothers.
  - rewrite Forall_lookup in Hnil. symmetry. by eapply Hnil.
  - destruct (decide (t = k)) as [->|Hne].
    + simplify_eq. f_equal. apply IH.
      * apply list_lookup_insert_eq. by eapply lookup_lt_Some.
      * intros j l' Hj. rewrite list_lookup_insert_ne by done. by apply Hothers.
    + by specialize (Hothers t _ Hne Ht).
Qed.

Lemma interleave_all_nil pend run :
  interleave pend run → Forall (λ l, l = []) pend → run = [].
Proof.
  intros Hrun Hnil. apply interleave_Permutation in Hrun.
  rewrite concat_all_nil in Hrun by done. by apply Permutation_nil_r.
Qed.

End interleave.
End InterleaveFacts.

Module TransferFacts.
Import Planner PlannerFacts Interleave InterleaveFacts Transfer Scenarios.

(** *** Runs of the threads *)

Section runs.
Variables (has_callback : bool) (file_size : Z).
Abbreviation run_events := (run_events has_callback file_size).
Abbreviation run_threads := (run_threads has_callback file_size).
Abbreviation apply_event := (apply_event has_callback file_size).

Lemma run_events_app a b st :
  run_events (a ++ b) st = run_events b (run_events a st).
Proof. unfold Transfer.run_events. by rewrite foldl_app. Qed.

Lemma drain_concat pend st :
  foldl (λ s evs, run_events evs s) st pend = run_events (concat pend) st.
Proof.
  revert st. induction pend as [|l pend IH]; intros st; simpl; [done|].
  by rewrite IH, run_events_app.
Qed.

(** Every schedule yields an interleaving of the thread bodies. *)
Lemma run_threads_interleave sched pend st :
  ∃ run, interleave pend run ∧ run_threads sched pend st = run_events run st.
Proof.
  revert pend st. induction sched as [|t sched IH]; intros pend st; simpl.
  - exists (concat pend). split; [apply interleave_sequential|apply drain_concat].
  - destruct (pend !! t) as [[|ev evs]|] eqn:Ht; [apply IH| |apply IH].
    destruct (IH (<[t := evs]> pend) (apply_event st ev)) as (run & Hrun & ->).
    exists (ev :: run). split; [|done].
    by eapply interleave_step.
Qed.

Lemma run_events_errors run st :
  errors (run_events run st).2 = errors st.2 ++ omap error_of run.
Proof.
  revert st. induction run as [|ev run IH]; intros [w sh]; simpl.
  - by rewrite app_nil_r.
  - unfold Transfer.run_events in *; simpl. rewrite IH.
    destruct ev; simpl; try done.
    by rewrite <- app_assoc.
Qed.

Lemma bytes_reported_cons ev run :
  bytes_reported (ev :: run) = delta_of ev + bytes_reported run.
Proof. done. Qed.

Lemma run_events_cons ev run st :
  run_events (ev :: run) st = run_events run (apply_event st ev).
Proof. done. Qed.

Lemma run_events_bytes run st :
  downloaded_bytes (run_events run st).2
  = downloaded_bytes st.2 + bytes_reported run.
Proof.
  revert st. induction run as [|ev run IH]; intros [w sh].
  - unfold bytes_reported; simpl. lia.
  - rewrite bytes_reported_cons, run_events_cons, IH.
    destruct ev; simpl; lia.
Qed.

Lemma run_events_console run st :
  console (run_events run st).1 = console st.1.
Proof.
  revert st. induction run as [|ev run IH]; intros [w sh]; simpl; [done|].
  unfold Transfer.run_events in *; simpl. rewrite IH.
  destruct ev; simpl; try done. by destruct has_callback.
Qed.

Lemma run_events_fs p run st :
  fs (run_events run st).1 !! p
  = foldl file_step (fs st.1 !! p) (filter (touches p) run).
Proof.
  revert st. induction run as [|ev run IH]; intros [w sh]; simpl; [done|].
  unfold Transfer.run_events in *; simpl. rewrite IH.
  destruct (decide (touches p ev)) as [Hp|Hp].
  - rewrite filter_cons_True by done. simpl. f_equal.
    destruct ev; simpl in *; try done; subst.
    + by rewrite lookup_insert_eq.
    + unfold append_file. by rewrite lookup_insert_eq.
  - rewrite filter_cons_False by done. f_equal.
    destruct ev; simpl in *; try done.
    + by rewrite lookup_insert_ne.
    + unfold append_file. by rewrite lookup_insert_ne.
    + by destruct has_callback.
Qed.

Lemma run_events_sessions idx run st :
  bool_decide (idx ∈ open_sessions (run_events run st).1)
  = foldl session_step (bool_decide (idx ∈ open_sessions st.1))
          (filter (on_session idx) run).
Proof.
  revert st. induction run as [|ev run IH]; intros [w sh]; simpl; [done|].
  unfold Transfer.run_events in *; simpl. rewrite IH.
  destruct (decide (on_session idx ev)) as [Hp|Hp].
  - rewrite filter_cons_True by done. simpl. f_equal.
    destruct ev; simpl in *; try done; subst.
    + apply bool_decide_eq_true. (rewrite ?elem_of_union, ?elem_of_difference, ?elem_of_singleton; intuition congruence).
    + apply bool_decide_eq_false. (rewrite ?elem_of_union, ?elem_of_difference, ?elem_of_singleton; intuition congruence).
  - rewrite filter_cons_False by done. f_equal.
    destruct ev; simpl in *; try done.
    + apply bool_decide_ext. (rewrite ?elem_of_union, ?elem_of_difference, ?elem_of_singleton; intuition congruence).
    + apply bool_decide_ext. (rewrite ?elem_of_union, ?elem_of_difference, ?elem_of_singleton; intuition congruence).
    + by destruct has_callback.
Qed.
End runs.

(** *** One worker *)

Lemma bytes_written_cons ev evs :
  bytes_written (ev :: evs) = data_of ev ++ bytes_written evs.
Proof. done. Qed.

Lemma bytes_written_app a b :
  bytes_written (a ++ b) = bytes_written a ++ bytes_written b.
Proof. unfold bytes_written. by rewrite fmap_app, concat_app. Qed.

Lemma bytes_reported_app a b :
  bytes_reported (a ++ b) = bytes_reported a + bytes_reported b.
Proof.
  induction a as [|ev a IH]; [done|].
  rewrite <- app_comm_cons, !bytes_reported_cons, IH. lia.
Qed.

Lemma read_loop_events temp_file n b rs :
  Forall (loop_event temp_file) (read_loop temp_file n b rs).1.
Proof.
  revert b. induction rs as [|[e|data] rs IH]; intros b; simpl; [done|..].
  - case_decide; constructor.
  - case_decide; [|constructor].
    destruct (take _ data) as [|x chunk_data]; [constructor|].
    specialize (IH (b + Z.of_nat (length (x :: chunk_data)))).
    destruct (read_loop _ _ _ rs) as [evs r]; simpl in *.
    repeat constructor; done.
Qed.

(** The loop reports exactly the bytes it writes, and never writes past
    the planned length. *)
Lemma read_loop_counts temp_file n b rs :
  bytes_reported (read_loop temp_file n b rs).1
  = Z.of_nat (length (bytes_written (read_loop temp_file n b rs).1)) ∧
  Z.of_nat (length (bytes_written (read_loop temp_file n b rs).1))
  ≤ Z.max 0 (n - b).
Proof.
  assert (Hnil : bytes_reported [] = Z.of_nat (length (bytes_written [])) ∧
                 ∀ k, Z.of_nat (length (bytes_written [])) ≤ Z.max 0 k).
  { split; [done|]. intros k. unfold bytes_written; simpl. lia. }
  destruct Hnil as [Hnil1 Hnil2].
  revert b. induction rs as [|[e|data] rs IH]; intros b; cbn [read_loop].
  - by split.
  - case_decide; by split.
  - case_decide; [|by split].
    destruct (take _ data) as [|x chunk_data] eqn:Htake; [by split|].
    assert (Hlen : Z.of_nat (length (x :: chunk_data)) ≤ n - b).
    { rewrite <- Htake, length_take. lia. }
    specialize (IH (b + Z.of_nat (length (x :: chunk_data)))).
    destruct (read_loop _ _ _ rs) as [evs r].
    destruct IH as [IH1 IH2]. cbn [fst] in *.
    rewrite !bytes_reported_cons, !bytes_written_cons.
    cbn [data_of delta_of]. rewrite app_nil_l, length_app. lia.
Qed.

Lemma loop_events_no_error temp_file evs :
  Forall (loop_event temp_file) evs → omap error_of evs = [].
Proof.
  induction 1 as [|ev evs Hev _ IH]; [done|].
  destruct ev; simpl in *; done.
Qed.

Lemma loop_events_other_file temp_file p evs :
  Forall (loop_event temp_file) evs → p ≠ temp_file →
  filter (touches p) evs = [].
Proof.
  induction 1 as [|ev evs Hev _ IH]; intros Hp; [done|].
  rewrite filter_cons_False; [by apply IH|].
  destruct ev; simpl in *; congruence.
Qed.

Lemma loop_events_no_session temp_file idx evs :
  Forall (loop_event temp_file) evs → filter (on_session idx) evs = [].
Proof.
  induction 1 as [|ev evs Hev _ IH]; [done|].
  rewrite filter_cons_False; [done|].
  destruct ev; simpl in *; tauto.
Qed.

Lemma loop_events_file temp_file evs acc :
  Forall (loop_event temp_file) evs →
  foldl file_step (Some acc) (filter (touches temp_file) evs)
  = Some (acc ++ bytes_written evs).
Proof.
  intros Hevs. revert acc.
  induction Hevs as [|ev evs Hev _ IH]; intros acc.
  - by rewrite app_nil_r.
  - rewrite bytes_written_cons. destruct ev; simpl in Hev; try done.
    subst. rewrite filter_cons_True by done. simpl.
    by rewrite IH, app_assoc.
Qed.

(** Case analysis over the steps of [download_chunk], with the facts
    about the read loop at hand. *)
Ltac chunk_cases t local_path idx start end_ :=
  unfold download_chunk;
  pose proof (read_loop_events (temp_name local_path idx) (end_ - start) 0
                (reads t)) as Hloop;
  pose proof (read_loop_counts (temp_name local_path idx) (end_ - start) 0
                (reads t)) as [Hrep Hlen];
  destruct (key_loaded t), (connect_result t), (open_sftp_result t),
    (remote_open_result t), (local_open_result t);
  destruct (read_loop (temp_name local_path idx) (end_ - start) 0 (reads t))
    as [evs [?|]]; cbn [fst] in *.

Lemma omap_error_app a b :
  omap error_of (a ++ b) = omap error_of a ++ omap error_of b.
Proof. apply omap_app. Qed.

(** A worker records at most one error, and it names the worker's chunk. *)
Lemma download_chunk_errors t local_path idx start end_ :
  omap error_of (download_chunk t local_path idx start end_) = [] ∨
  ∃ e, omap error_of (download_chunk t local_path idx start end_)
       = ["Chunk " +:+ pretty idx +:+ ": " +:+ e].
Proof.
  chunk_cases t local_path idx start end_; cbn [omap list_omap error_of chunk_error];
    try (right; eexists; reflexivity);
    rewrite omap_error_app, (loop_events_no_error _ _ Hloop); simpl; eauto.
Qed.

(** Without an error the worker went through every step. *)
Lemma download_chunk_clean t local_path idx start end_ :
  omap error_of (download_chunk t local_path idx start end_) = [] →
  download_chunk t local_path idx start end_
  = EvConnect idx :: EvTemp (temp_name local_path idx)
      :: EvCreate (temp_name local_path idx)
      :: (read_loop (temp_name local_path idx) (end_ - start) 0 (reads t)).1
      ++ [EvClose idx] ∧
  (read_loop (temp_name local_path idx) (end_ - start) 0 (reads t)).2 = None.
Proof.
  unfold download_chunk.
  pose proof (read_loop_events (temp_name local_path idx) (end_ - start) 0
                (reads t)) as Hloop.
  destruct (key_loaded t), (connect_result t), (open_sftp_result t),
    (remote_open_result t), (local_open_result t); try done.
  destruct (read_loop (temp_name local_path idx) (end_ - start) 0 (reads t))
    as [evs [?|]]; cbn [fst snd] in *; [|done].
  cbn [omap list_omap error_of]. rewrite omap_error_app.
  rewrite (loop_events_no_error _ _ Hloop). done.
Qed.

(** A worker writes to no file but its own. *)
Lemma download_chunk_other_file t local_path idx start end_ p :
  p ≠ temp_name local_path idx →
  filter (touches p) (download_chunk t local_path idx start end_) = [].
Proof.
  intros Hp.
  chunk_cases t local_path idx start end_; try done;
    repeat (rewrite filter_cons_False by (simpl; congruence || tauto));
    rewrite ?filter_app, ?(loop_events_other_file _ _ _ Hloop Hp); try done.
Qed.

(** A worker touches no session but its own. *)
Lemma download_chunk_other_session t local_path idx start end_ j :
  j ≠ idx →
  filter (on_session j) (download_chunk t local_path idx start end_) = [].
Proof.
  intros Hj.
  chunk_cases t local_path idx start end_; try done;
    repeat (rewrite filter_cons_False by (simpl; congruence || tauto));
    rewrite ?filter_app, ?(loop_events_no_session _ _ _ Hloop); try done;
    simpl; rewrite filter_cons_False by (simpl; congruence || tauto); done.
Qed.

(** Once opened, the chunk file holds exactly what the worker wrote. *)
Lemma download_chunk_file t local_path idx start end_ cur :
  EvCreate (temp_name local_path idx)
    ∈ download_chunk t local_path idx start end_ →
  foldl file_step cur
        (filter (touches (temp_name local_path idx))
                (download_chunk t local_path idx start end_))
  = Some (bytes_written (download_chunk t local_path idx start end_)).
Proof.
  chunk_cases t local_path idx start end_; intros Hin;
    try (by repeat (apply elem_of_cons in Hin as [?|Hin]; [done|]);
            apply elem_of_nil in Hin).
  all: repeat (rewrite filter_cons_False by (simpl; congruence || tauto)).
  all: rewrite filter_cons_True by done.
  all: rewrite filter_app; cbn [foldl file_step]; rewrite foldl_app.
  all: rewrite (loop_events_file _ _ _ Hloop).
  all: rewrite !bytes_written_cons, bytes_written_app; cbn [data_of].
  all: by rewrite app_nil_r.
Qed.

(** What the worker reports is what it wrote, and at most its range. *)
Lemma download_chunk_counts t local_path idx start end_ :
  bytes_reported (download_chunk t local_path idx start end_)
  = Z.of_nat (length (bytes_written (download_chunk t local_path idx start end_)))
  ∧ Z.of_nat (length (bytes_written (download_chunk t local_path idx start end_)))
    ≤ Z.max 0 (end_ - start).
Proof.
  chunk_cases t local_path idx start end_;
    try (split; [done|unfold bytes_written; simpl; lia]).
  all: rewrite !bytes_reported_cons, bytes_reported_app.
  all: rewrite !bytes_written_cons, bytes_written_app.
  all: cbn [delta_of data_of chunk_error bytes_reported bytes_written
            fmap list_fmap concat sum_list_Z foldr].
  all: rewrite ?app_nil_l, ?app_nil_r; replace (end_ - start - 0) with (end_ - start) in Hlen by lia.
  all: split; lia.
Qed.

(** *** Names of the chunk files *)

Lemma temp_name_inj local_path i j :
  temp_name local_path i = temp_name local_path j → i = j.
Proof.
  unfold temp_name. intros H.
  apply (inj (String.app local_path)) in H.
  apply (inj (String.app ".part")) in H.
  by apply (inj pretty) in H.
Qed.

Lemma string_length_app (s1 s2 : string) :
  String.length (s1 +:+ s2) = (String.length s1 + String.length s2)%nat.
Proof. induction s1 as [|c s1 IH]; simpl; [done|by rewrite IH]. Qed.

Lemma temp_name_not_dest local_path i : local_path ≠ temp_name local_path i.
Proof.
  unfold temp_name. intros H.
  apply (f_equal String.length) in H.
  rewrite !string_length_app in H. simpl in H. lia.
Qed.

(** *** All workers of one transfer *)

Lemma bytes_reported_Permutation a b :
  a ≡ₚ b → bytes_reported a = bytes_reported b.
Proof.
  induction 1 as [|ev a b _ IH|ev ev' a|a b c _ IH1 _ IH2];
    rewrite ?bytes_reported_cons; try lia; congruence.
Qed.

Lemma bytes_reported_concat (traces : list (list event)) :
  bytes_reported (concat traces) = sum_list_Z (bytes_reported <$> traces).
Proof.
  induction traces as [|tr traces IH]; [done|].
  simpl concat. rewrite bytes_reported_app, IH. done.
Qed.

Lemma elem_of_concat {A} (x : A) (ls : list (list A)) :
  x ∈ concat ls ↔ ∃ l, x ∈ l ∧ l ∈ ls.
Proof.
  induction ls as [|l0 ls IH]; simpl.
  - split; [by intros ?%elem_of_nil|by intros (l & _ & ?%elem_of_nil)].
  - rewrite elem_of_app, IH. split.
    + intros [H0|(l & Hx & Hl)]; [exists l0|exists l]; split; auto;
        [by left|by right].
    + intros (l & Hx & [->|Hl]%elem_of_cons); eauto.
Qed.

Lemma omap_error_concat_nil (traces : list (list event)) tr :
  omap error_of (concat traces) = [] → tr ∈ traces → omap error_of tr = [].
Proof.
  induction traces as [|tr0 traces IH]; intros Hnil Hin.
  - by apply elem_of_nil in Hin.
  - simpl in Hnil. rewrite omap_error_app in Hnil.
    apply app_eq_nil in Hnil as [H0 Hrest].
    apply elem_of_cons in Hin as [->|Hin]; auto.
Qed.

Section workers.
Variables (r : remote) (local_path : string) (has_callback : bool).
Variables (file_size chunks chunk_size : Z) (sched : list nat).
Variables (w : world) (sh : shared).

Let worker_trace := worker_trace r local_path file_size chunks chunk_size.
Let traces := worker_traces r local_path file_size chunks chunk_size.
Let after := run_threads has_callback file_size sched traces (w, sh).

Lemma worker_traces_lookup (k : nat) tr :
  traces !! k = Some tr ↔ Z.of_nat k < chunks ∧ tr = worker_trace (Z.of_nat k).
Proof.
  subst traces. unfold worker_traces.
  rewrite list_lookup_fmap, fmap_Some. split.
  - intros (a & [Hk ->]%thread_args_lookup & ->). done.
  - intros [Hk ->]. eexists. split; [apply thread_args_lookup; eauto|done].
Qed.

Lemma worker_traces_fmap :
  traces = worker_trace <$> seqZ 0 chunks.
Proof.
  subst traces. unfold worker_traces, thread_args.
  rewrite <- list_fmap_compose. done.
Qed.

Lemma run_threads_errors :
  errors after.2 ≡ₚ errors sh ++ omap error_of (concat traces).
Proof.
  subst after.
  destruct (run_threads_interleave has_callback file_size sched traces (w, sh))
    as (run & Hrun & ->).
  rewrite run_events_errors. simpl.
  by rewrite (interleave_Permutation _ _ Hrun).
Qed.

Lemma run_threads_bytes :
  downloaded_bytes after.2
  = downloaded_bytes sh + sum_list_Z (bytes_reported <$> traces).
Proof.
  subst after.
  destruct (run_threads_interleave has_callback file_size sched traces (w, sh))
    as (run & Hrun & ->).
  rewrite run_events_bytes. simpl.
  rewrite (bytes_reported_Permutation _ _ (interleave_Permutation _ _ Hrun)).
  by rewrite bytes_reported_concat.
Qed.

Lemma run_threads_console : console after.1 = console w.
Proof.
  subst after.
  destruct (run_threads_interleave has_callback file_size sched traces (w, sh))
    as (run & Hrun & ->).
  by rewrite run_events_console.
Qed.

(** A chunk file is written by its own worker only, so it ends up as that
    worker alone would have left it. *)
Lemma run_threads_chunk_file (i : Z) :
  0 ≤ i < chunks →
  fs after.1 !! temp_name local_path i
  = foldl file_step (fs w !! temp_name local_path i)
          (filter (touches (temp_name local_path i)) (worker_trace i)).
Proof.
  intros Hi. subst after.
  destruct (run_threads_interleave has_callback file_size sched traces (w, sh))
    as (run & Hrun & ->).
  rewrite run_events_fs. simpl. f_equal.
  apply (interleave_filter (touches (temp_name local_path i))) in Hrun.
  eapply (interleave_single _ _ (Z.to_nat i)); [exact Hrun|..].
  - rewrite list_lookup_fmap.
    rewrite (proj2 (worker_traces_lookup (Z.to_nat i) (worker_trace i))).
    + done.
    + split; [lia|]. f_equal. lia.
  - intros j l' Hj. rewrite list_lookup_fmap, fmap_Some.
    intros (tr & [Hlt ->]%worker_traces_lookup & ->).
    apply download_chunk_other_file.
    intros Heq%temp_name_inj. lia.
Qed.

(** No worker writes anywhere else. *)
Lemma run_threads_other_file p :
  (∀ i, p ≠ temp_name local_path i) →
  fs after.1 !! p = fs w !! p.
Proof.
  intros Hp. subst after.
  destruct (run_threads_interleave has_callback file_size sched traces (w, sh))
    as (run & Hrun & ->).
  rewrite run_events_fs. simpl.
  apply (interleave_filter (touches p)) in Hrun.
  apply interleave_all_nil in Hrun as ->; [done|].
  apply Forall_fmap, Forall_lookup. intros k tr [_ ->]%worker_traces_lookup.
  simpl. by apply download_chunk_other_file.
Qed.

(** A session is opened and closed by its own worker only. *)
Lemma run_threads_session (i : Z) :
  0 ≤ i < chunks →
  bool_decide (i ∈ open_sessions after.1)
  = foldl session_step (bool_decide (i ∈ open_sessions w))
          (filter (on_session i) (worker_trace i)).
Proof.
  intros Hi. subst after.
  destruct (run_threads_interleave has_callback file_size sched traces (w, sh))
    as (run & Hrun & ->).
  rewrite run_events_sessions. simpl. f_equal.
  apply (interleave_filter (on_session i)) in Hrun.
  eapply (interleave_single _ _ (Z.to_nat i)); [exact Hrun|..].
  - rewrite list_lookup_fmap.
    rewrite (proj2 (worker_traces_lookup (Z.to_nat i) (worker_trace i))).
    + done.
    + split; [lia|]. f_equal. lia.
  - intros j l' Hj. rewrite list_lookup_fmap, fmap_Some.
    intros (tr & [Hlt ->]%worker_traces_lookup & ->).
    apply download_chunk_other_session. lia.
Qed.
End workers.

(** *** Reassembly *)

Lemma reassemble_done dk local_path (d : Z → list byte) idxs :
  ∀ m acc m',
  NoDup idxs →
  m !! local_path = Some acc →
  (∀ i, i ∈ idxs → m !! temp_name local_path i = Some (d i)) →
  reassemble dk local_path idxs m = (m', None) →
  m' !! local_path = Some (acc ++ concat (d <$> idxs)) ∧
  (∀ i, i ∈ idxs → m' !! temp_name local_path i = None) ∧
  (∀ p, p ≠ local_path → (∀ i, i ∈ idxs → p ≠ temp_name local_path i) →
        m' !! p = m !! p).
Proof.
  induction idxs as [|i idxs IH]; intros m acc m' Hnd Hdest Htemps.
  - simpl. intros [= <-]. rewrite app_nil_r. repeat split; auto.
    intros i Hi. by apply elem_of_nil in Hi.
  - apply NoDup_cons in Hnd as [Hi Hnd]. simpl.
    rewrite (Htemps i) by (by left).
    destruct (open_chunk_result dk i); [done|].
    destruct (write_result dk i) as [[e n]|]; [done|].
    destruct (remove_result dk i); [done|].
    set (m1 := delete (temp_name local_path i)
                      (append_file local_path (d i) m)).
    assert (Hm1 : ∀ p, p ≠ local_path → p ≠ temp_name local_path i →
                       m1 !! p = m !! p).
    { intros p Hp1 Hp2. subst m1. rewrite lookup_delete_ne by done.
      unfold append_file. by rewrite lookup_insert_ne. }
    intros Hrun.
    destruct (IH m1 (acc ++ d i) m') as (Hout & Hgone & Hrest).
    + done.
    + subst m1. rewrite lookup_delete_ne by apply not_eq_sym, temp_name_not_dest.
      unfold append_file. by rewrite lookup_insert_eq, Hdest.
    + intros j Hj. rewrite Hm1.
      * apply Htemps. by right.
      * apply not_eq_sym, temp_name_not_dest.
      * intros Heq%temp_name_inj. by subst.
    + done.
    + split; [by rewrite Hout, <- app_assoc|]. split.
      * intros j [->|Hj]%elem_of_cons; [|by apply Hgone].
        rewrite Hrest.
        -- subst m1. by rewrite lookup_delete_eq.
        -- apply not_eq_sym, temp_name_not_dest.
        -- intros j Hj Heq%temp_name_inj. by subst.
      * intros p Hp Hne. rewrite Hrest.
        -- apply Hm1; [done|]. apply Hne. by left.
        -- done.
        -- intros j Hj. apply Hne. by right.
Qed.

(** With every chunk file in place and a disk that raises nothing, the
    loop runs to its end. *)
Lemma reassemble_sound dk local_path idxs :
  ∀ m,
  NoDup idxs →
  (∀ i, i ∈ idxs → is_Some (m !! temp_name local_path i)) →
  (∀ i, i ∈ idxs → open_chunk_result dk i = None ∧ write_result dk i = None ∧
                   remove_result dk i = None) →
  (reassemble dk local_path idxs m).2 = None.
Proof.
  induction idxs as [|i idxs IH]; intros m Hnd Htemps Hok; [done|].
  apply NoDup_cons in Hnd as [Hi Hnd]. simpl.
  destruct (Htemps i ltac:(by left)) as [data ->].
  destruct (Hok i ltac:(by left)) as (-> & -> & ->).
  apply IH; [done| |].
  - intros j Hj. rewrite lookup_delete_ne.
    + unfold append_file.
      rewrite lookup_insert_ne by apply temp_name_not_dest.
      apply Htemps. by right.
    + intros Heq%temp_name_inj. by subst.
  - intros j Hj. apply Hok. by right.
Qed.

(** *** Sums *)

Lemma sum_list_Z_app a b : sum_list_Z (a ++ b) = sum_list_Z a + sum_list_Z b.
Proof.
  unfold sum_list_Z. induction a as [|x a IH]; simpl; [done|]. rewrite IH. lia.
Qed.

Lemma length_concat_Z {A} (ls : list (list A)) :
  Z.of_nat (length (concat ls))
  = sum_list_Z ((λ l, Z.of_nat (length l)) <$> ls).
Proof.
  induction ls as [|l ls IH]; [done|].
  simpl concat. rewrite length_app, Nat2Z.inj_add, IH. done.
Qed.

Lemma sum_list_Z_le {A} (f g : A → Z) (l : list A) :
  (∀ x, x ∈ l → f x ≤ g x) →
  sum_list_Z (f <$> l) ≤ sum_list_Z (g <$> l) ∧
  (sum_list_Z (f <$> l) = sum_list_Z (g <$> l) ↔ ∀ x, x ∈ l → f x = g x).
Proof.
  induction l as [|x l IH]; intros Hle.
  - split; [done|]. split; [|done]. intros _ y Hy. by apply elem_of_nil in Hy.
  - destruct IH as [IH1 IH2]; [intros y Hy; apply Hle; by right|].
    pose proof (Hle x ltac:(by left)) as Hx.
    change (sum_list_Z (f <$> x :: l)) with (f x + sum_list_Z (f <$> l)).
    change (sum_list_Z (g <$> x :: l)) with (g x + sum_list_Z (g <$> l)).
    split; [lia|]. split.
    + intros Heq y [->|Hy]%elem_of_cons; [lia|]. apply IH2; [lia|done].
    + intros Hall. rewrite (Hall x) by (by left).
      f_equal. apply IH2. intros y Hy. apply Hall. by right.
Qed.

(** *** The parallel path of [download_file] *)

Lemma print_errors_world w errs :
  fs (foldl print_error w errs) = fs w ∧
  console (foldl print_error w errs)
  = console w ++ ((λ e, "[red]" +:+ e +:+ "[/red]") <$> errs) ∧
  open_sessions (foldl print_error w errs) = open_sessions w.
Proof.
  revert w. induction errs as [|e errs IH]; intros w; simpl.
  - by rewrite app_nil_r.
  - destruct (IH (print_error w e)) as (-> & -> & ->). simpl.
    by rewrite <- app_assoc.
Qed.

Lemma download_chunk_clean_creates t local_path idx start end_ :
  omap error_of (download_chunk t local_path idx start end_) = [] →
  EvCreate (temp_name local_path idx) ∈ download_chunk t local_path idx start end_.
Proof.
  intros [-> _]%download_chunk_clean. do 2 right. by left.
Qed.

Lemma error_event_iff (tr : list event) :
  omap error_of tr = [] ↔ ∀ msg, EvError msg ∉ tr.
Proof.
  split.
  - intros Hnil msg Hin.
    assert (msg ∈ omap error_of tr) as Hmsg
      by (apply list_elem_of_omap; by exists (EvError msg)).
    rewrite Hnil in Hmsg. by apply elem_of_nil in Hmsg.
  - intros Hno. destruct (omap error_of tr) as [|msg l] eqn:Hl; [done|].
    assert (msg ∈ omap error_of tr) as Hmsg by (rewrite Hl; by left).
    apply list_elem_of_omap in Hmsg as (ev & Hev & Hmsg).
    destruct ev; simplify_eq/=. by apply Hno in Hev.
Qed.

Section parallel.
Variables (r : remote) (local_path : string) (has_callback : bool).
Variables (file_size chunks : Z) (sched : list nat) (w : world).
Hypothesis Hstat : stat_result r = inr file_size.
Hypothesis Hbig : small_file_threshold ≤ file_size.
Hypothesis Hchunks : chunks ≠ 0.

Let cs := file_size `div` chunks.
Let trace := worker_trace r local_path file_size chunks cs.
Let after :=
  run_threads has_callback file_size sched
    (worker_traces r local_path file_size chunks cs) (w, mkShared [] [] 0).

Lemma download_file_parallel :
  download_file true r local_path has_callback chunks sched w =
  match errors after.2 with
  | _ :: _ =>
      mkOutcome false (foldl print_error after.1 (errors after.2)) (Some after.2)
  | [] =>
      match open_output_result (local_disk r) with
      | Some e => mkOutcome false (download_failed e after.1) (Some after.2)
      | None =>
        let '(m, e) := reassemble (local_disk r) local_path (seqZ 0 chunks)
                                  (<[local_path := []]> (fs after.1)) in
        let '(m, e) := close_output (local_disk r) local_path m e in
        match e with
        | Some e => mkOutcome false (download_failed e (with_fs (λ _, m) after.1))
                              (Some after.2)
        | None => mkOutcome true (with_fs (λ _, m) after.1) (Some after.2)
        end
      end
  end.
Proof.
  unfold download_file. rewrite Hstat.
  rewrite decide_False by lia.
  unfold floordiv. rewrite decide_False by done. simpl.
  subst after cs. by destruct (run_threads _ _ _ _ _) as [w1 sh].
Qed.

Lemma trace_in_traces i :
  0 ≤ i < chunks →
  trace i ∈ worker_traces r local_path file_size chunks cs.
Proof.
  intros Hi. apply list_elem_of_lookup. exists (Z.to_nat i).
  apply worker_traces_lookup. split; [lia|]. subst trace. f_equal. lia.
Qed.

(** The [errors] list is what the workers recorded, in some order. *)
Lemma recorded_errors msg :
  msg ∈ errors after.2 ↔ ∃ i, 0 ≤ i < chunks ∧ EvError msg ∈ trace i.
Proof.
  subst after. rewrite run_threads_errors. simpl.
  rewrite list_elem_of_omap. split.
  - intros (ev & Hev & Hmsg). destruct ev; simplify_eq/=.
    apply elem_of_concat in Hev as (tr & Hev & Htr).
    apply list_elem_of_lookup in Htr as [k [Hk ->]%worker_traces_lookup].
    exists (Z.of_nat k). split; [lia|done].
  - intros (i & Hi & Hev). exists (EvError msg). split; [|done].
    apply elem_of_concat. exists (trace i). split; [done|].
    by apply trace_in_traces.
Qed.

Lemma no_errors_iff :
  errors after.2 = [] ↔ ∀ i, 0 ≤ i < chunks → omap error_of (trace i) = [].
Proof.
  split.
  - intros Hnil i Hi. apply error_event_iff. intros msg Hin.
    assert (msg ∈ errors after.2) as Hmsg by (apply recorded_errors; eauto).
    rewrite Hnil in Hmsg. by apply elem_of_nil in Hmsg.
  - intros Hclean. destruct (errors after.2) as [|msg l] eqn:Hl; [done|].
    assert (msg ∈ errors after.2) as Hmsg by (rewrite Hl; by left).
    apply recorded_errors in Hmsg as (i & Hi & Hev).
    specialize (Hclean i Hi). by eapply error_event_iff in Hclean.
Qed.

(** A worker's chunk file after all threads have finished. *)
Lemma chunk_file_after i :
  0 ≤ i < chunks →
  EvCreate (temp_name local_path i) ∈ trace i →
  fs after.1 !! temp_name local_path i = Some (bytes_written (trace i)).
Proof.
  intros Hi Hcreate. subst after.
  rewrite run_threads_chunk_file by done.
  by apply download_chunk_file.
Qed.

Lemma dest_untouched_by_workers :
  fs after.1 !! local_path = fs w !! local_path.
Proof. subst after. apply run_threads_other_file, temp_name_not_dest. Qed.

(** The counter ends at the number of bytes the workers wrote. *)
Lemma counter_after :
  downloaded_bytes after.2
  = Z.of_nat (length (transferred r local_path file_size chunks)).
Proof.
  subst after. rewrite run_threads_bytes. simpl.
  unfold transferred. rewrite length_concat_Z, worker_traces_fmap.
  rewrite <- !list_fmap_compose. rewrite Z.add_0_l. f_equal.
  apply list_fmap_ext.
  intros _ i _. simpl. apply download_chunk_counts.
Qed.

Lemma parallel_failed :
  errors after.2 ≠ [] →
  download_file true r local_path has_callback chunks sched w
  = mkOutcome false (foldl print_error after.1 (errors after.2)) (Some after.2).
Proof.
  intros Herr. rewrite download_file_parallel.
  by destruct (errors after.2).
Qed.

(** What the workers leave for the reassembly when none of them recorded
    an error: every chunk file, holding what its worker wrote. *)
Lemma chunk_files_ready :
  errors after.2 = [] →
  ∀ i, i ∈ seqZ 0 chunks →
    (<[local_path := []]> (fs after.1)) !! temp_name local_path i
    = Some (bytes_written (trace i)).
Proof.
  intros Hnil i Hi%elem_of_seqZ.
  rewrite lookup_insert_ne by apply temp_name_not_dest.
  apply chunk_file_after; [lia|].
  apply download_chunk_clean_creates.
  apply no_errors_iff; [done|lia].
Qed.

(** A clean run whose reassembly raised nothing. *)
Lemma parallel_success :
  errors after.2 = [] →
  result (download_file true r local_path has_callback chunks sched w) = true →
  ∃ m, download_file true r local_path has_callback chunks sched w
       = mkOutcome true (with_fs (λ _, m) after.1) (Some after.2) ∧
       m !! local_path = Some (transferred r local_path file_size chunks) ∧
       (∀ i, 0 ≤ i < chunks → m !! temp_name local_path i = None) ∧
       (∀ p, p ≠ local_path → (∀ i, p ≠ temp_name local_path i) →
             m !! p = fs w !! p).
Proof.
  intros Hnil. rewrite download_file_parallel, Hnil.
  destruct (open_output_result (local_disk r)); [done|].
  unfold close_output.
  destruct (reassemble _ _ _ _) as [m e] eqn:Hrun.
  destruct (close_output_result (local_disk r)) as [[e' n]|]; [done|].
  destruct e as [e|]; [done|]. intros _.
  destruct (reassemble_done (local_disk r) local_path
              (λ i, bytes_written (trace i))
              (seqZ 0 chunks) (<[local_path := []]> (fs after.1)) [] m)
    as (Hdest & Hgone & Hrest).
  - apply NoDup_seqZ.
  - apply lookup_insert_eq.
  - by apply chunk_files_ready.
  - done.
  - exists m. split; [done|]. split; [done|]. split.
    + intros i Hi. apply Hgone, elem_of_seqZ. lia.
    + intros p Hp Hne. rewrite Hrest by auto.
      rewrite lookup_insert_ne by done.
      subst after. by apply run_threads_other_file.
Qed.

(** A clean run on a disk that raises nothing succeeds. *)
Lemma parallel_clean :
  errors after.2 = [] →
  no_fault (local_disk r) chunks →
  result (download_file true r local_path has_callback chunks sched w) = true.
Proof.
  intros Hnil (Hopen & Hclose & Hok).
  rewrite download_file_parallel, Hnil, Hopen.
  pose proof (reassemble_sound (local_disk r) local_path (seqZ 0 chunks)
                (<[local_path := []]> (fs after.1))) as Hrun.
  unfold close_output. rewrite Hclose.
  destruct (reassemble _ _ _ _) as [m e]. simpl in Hrun.
  rewrite Hrun; [done|apply NoDup_seqZ| |].
  - intros i Hi. rewrite chunk_files_ready by done. eauto.
  - intros i Hi%elem_of_seqZ. apply Hok. lia.
Qed.
End parallel.

(** With a usable degree the workers never write more than the file, and
    write all of it only if each wrote its whole range. *)
Lemma transferred_bound r local_path file_size chunks :
  0 ≤ file_size → 1 ≤ chunks →
  Z.of_nat (length (transferred r local_path file_size chunks)) ≤ file_size ∧
  (Z.of_nat (length (transferred r local_path file_size chunks)) = file_size ↔
   ∀ i, 0 ≤ i < chunks →
     Z.of_nat (length (bytes_written
                 (worker_trace r local_path file_size chunks
                               (file_size `div` chunks) i)))
     = range_len (chunk_args file_size chunks (file_size `div` chunks) i)).
Proof.
  intros Hsize Hchunks. unfold transferred.
  rewrite length_concat_Z, <- list_fmap_compose.
  pose proof (plan_sum file_size chunks Hchunks) as Hsum.
  unfold thread_args in Hsum. rewrite <- list_fmap_compose in Hsum.
  rewrite <- Hsum at 1 2.
  destruct (sum_list_Z_le
    ((λ l : list byte, Z.of_nat (length l))
       ∘ (λ i, bytes_written (worker_trace r local_path file_size chunks
                                (file_size `div` chunks) i)))
    (range_len ∘ chunk_args file_size chunks (file_size `div` chunks))
    (seqZ 0 chunks)) as [Hle Hiff].
  - intros i Hi%elem_of_seqZ. simpl. unfold worker_trace.
    pose proof (download_chunk_counts (worker_transport r i) local_path i
      (chunk_start (chunk_args file_size chunks (file_size `div` chunks) i))
      (chunk_end (chunk_args file_size chunks (file_size `div` chunks) i)))
      as [_ Hlen].
    pose proof (chunk_args_ordered file_size chunks Hsize Hchunks i ltac:(lia)).
    unfold range_len. lia.
  - split; [done|]. rewrite Hiff. split.
    + intros H i Hi. apply (H i). apply elem_of_seqZ. lia.
    + intros H i Hi%elem_of_seqZ. apply (H i). lia.
Qed.

(** **** Reads that only ever return data *)



(** **** Sessions *)

(** A worker that is through without an error has closed its session. *)
Lemma download_chunk_closes t local_path idx start end_ cur :
  omap error_of (download_chunk t local_path idx start end_) = [] →
  foldl session_step cur
        (filter (on_session idx) (download_chunk t local_path idx start end_))
  = false.
Proof.
  intros [-> _]%download_chunk_clean.
  pose proof (read_loop_events (temp_name local_path idx) (end_ - start) 0
                (reads t)) as Hloop.
  rewrite filter_cons_True by done.
  do 2 rewrite filter_cons_False by (simpl; tauto).
  rewrite filter_app, (loop_events_no_session _ _ _ Hloop).
  rewrite app_nil_l, filter_cons_True by done. done.
Qed.

(** A worker that connected and then recorded an error leaves its session
    connected: [sftp.close(); ssh.close()] sit on the normal path only. *)
Lemma download_chunk_leaks t local_path idx start end_ cur msg :
  EvConnect idx ∈ download_chunk t local_path idx start end_ →
  EvError msg ∈ download_chunk t local_path idx start end_ →
  foldl session_step cur
        (filter (on_session idx) (download_chunk t local_path idx start end_))
  = true.
Proof.
  chunk_cases t local_path idx start end_; intros Hc He;
    try (by repeat (apply elem_of_cons in Hc as [?|Hc]; [done|]);
            apply elem_of_nil in Hc).
  all: try (exfalso;
            repeat (apply elem_of_cons in He as [?|He]; [done|]);
            apply elem_of_app in He as [He|He];
            [rewrite Forall_forall in Hloop; by apply Hloop in He
            |by apply list_elem_of_singleton in He]).
  all: repeat first
         [ rewrite filter_cons_True by done
         | rewrite filter_cons_False by (simpl; tauto)
         | rewrite filter_app
         | rewrite (loop_events_no_session _ _ _ Hloop) ].
  all: done.
Qed.

(** *** The outcome of a parallel transfer *)

Section outcome.
Variables (r : remote) (local_path : string) (has_callback : bool).
Variables (file_size chunks : Z) (sched : list nat) (w : world).
Hypothesis Hstat : stat_result r = inr file_size.
Hypothesis Hbig : small_file_threshold ≤ file_size.
Hypothesis Hchunks : chunks ≠ 0.

Let cs := file_size `div` chunks.
Let trace := worker_trace r local_path file_size chunks cs.
Let o := download_file true r local_path has_callback chunks sched w.

Lemma failure_outcome i msg :
  0 ≤ i < chunks → EvError msg ∈ trace i →
  result o = false ∧
  (∀ p, (∀ j, p ≠ temp_name local_path j) → fs (final o) !! p = fs w !! p) ∧
  (∀ j, 0 ≤ j < chunks → EvCreate (temp_name local_path j) ∈ trace j →
        fs (final o) !! temp_name local_path j = Some (bytes_written (trace j))) ∧
  (∀ j msg', 0 ≤ j < chunks → EvError msg' ∈ trace j →
        "[red]" +:+ msg' +:+ "[/red]" ∈ console (final o)) ∧
  (∀ j, 0 ≤ j < chunks →
        bool_decide (j ∈ open_sessions (final o))
        = foldl session_step (bool_decide (j ∈ open_sessions w))
                (filter (on_session j) (trace j))).
Proof.
  intros Hi Hev. subst o.
  assert (Herr : errors (run_threads has_callback file_size sched
             (worker_traces r local_path file_size chunks cs)
             (w, mkShared [] [] 0)).2 ≠ []).
  { intros Hnil.
    pose proof (proj2 (recorded_errors r local_path has_callback file_size
                         chunks sched w Hchunks msg)
                      (ex_intro _ i (conj Hi Hev))) as Hm.
    unfold cs in Hnil. rewrite Hnil in Hm. by apply elem_of_nil in Hm. }
  rewrite (parallel_failed _ _ _ _ _ _ _ Hstat Hbig Hchunks Herr).
  simpl.
  match goal with |- context [foldl print_error ?w1 ?errs] =>
    destruct (print_errors_world w1 errs) as (Hfs & Hcon & Hses) end.
  rewrite Hfs, Hcon, Hses. split; [done|]. split; [|split; [|split]].
  - intros p Hp. by apply run_threads_other_file.
  - intros j Hj Hc.
    exact (chunk_file_after r local_path has_callback file_size chunks sched w
             j Hj Hc).
  - intros j msg' Hj Hm. apply elem_of_app. right.
    apply list_elem_of_fmap. exists msg'. split; [done|].
    apply recorded_errors; eauto.
  - intros j Hj. by apply run_threads_session.
Qed.

Lemma success_clean :
  result o = true → ∀ i, 0 ≤ i < chunks → ∀ msg, EvError msg ∉ trace i.
Proof.
  intros Hres i Hi msg Hev.
  destruct (failure_outcome i msg Hi Hev) as [Hfalse _]. congruence.
Qed.

Lemma clean_success :
  (∀ i, 0 ≤ i < chunks → ∀ msg, EvError msg ∉ trace i) →
  no_fault (local_disk r) chunks →
  result o = true.
Proof.
  intros Hclean Hdisk. unfold o.
  apply (parallel_clean r local_path has_callback file_size chunks sched w
           Hstat Hbig Hchunks); [|done].
  apply no_errors_iff; [done|]. intros i Hi. apply error_event_iff. auto.
Qed.

Lemma success_outcome :
  result o = true →
  fs (final o) !! local_path = Some (transferred r local_path file_size chunks) ∧
  (∀ i, 0 ≤ i < chunks → fs (final o) !! temp_name local_path i = None) ∧
  ∃ sh, locals o = Some sh ∧ errors sh = [] ∧
        downloaded_bytes sh
        = Z.of_nat (length (transferred r local_path file_size chunks)).
Proof.
  intros Hres.
  assert (Hnil : errors (run_threads has_callback file_size sched
             (worker_traces r local_path file_size chunks cs)
             (w, mkShared [] [] 0)).2 = []).
  { apply no_errors_iff; [done|]. intros i Hi. apply error_event_iff.
    by apply success_clean. }
  unfold o in Hres |- *.
  destruct (parallel_success r local_path has_callback file_size chunks sched w
              Hstat Hbig Hchunks Hnil Hres) as (m & -> & Hdest & Hgone & _).
  simpl. split; [done|]. split; [done|].
  eexists. split; [done|]. split; [done|]. apply counter_after.
Qed.
End outcome.

(** *** The design document's statements about the transfer engine *)

(** C1. For every file size [>= 0] and degree [>= 1], the ranges the
    parallel path hands to its workers are [chunks] in number, contiguous,
    non-overlapping, start at 0, end at [file_size] and cover exactly
    [[0, file_size)]; below the 10 MiB threshold the file is fetched in one
    piece by the single [get] of the coordinator's own connection: no
    worker state is created, no worker session is opened, no file but the
    destination changes, the destination holds what that [get] left there,
    the callback sees that [get]'s reports only, and [download_file]
    returns [True] unless the [get] raised. *)
Theorem chunk_plan_partitions_file file_size chunks :
  0 ≤ file_size → 1 ≤ chunks →
  (∃ p, chunk_plan file_size chunks = Some p ∧
        length p = Z.to_nat chunks ∧
        well_formed p ∧ contiguous p ∧ non_overlapping p ∧
        covers p file_size ∧
        (∀ r, p !! 0%nat = Some r → chunk_start r = 0) ∧
        (∀ r, p !! Z.to_nat (chunks - 1) = Some r → chunk_end r = file_size) ∧
        sum_list_Z (range_len <$> p) = file_size) ∧
  (file_size < small_file_threshold →
   ∀ r local_path has_callback sched w,
     stat_result r = inr file_size →
     let o := download_file true r local_path has_callback chunks sched w in
     locals o = None ∧
     open_sessions (final o) = open_sessions w ∧
     (∀ p, p ≠ local_path → fs (final o) !! p = fs w !! p) ∧
     fs (final o) !! local_path
     = match get_written (get_result r) with
       | Some data => Some data
       | None => fs w !! local_path
       end ∧
     progress (final o)
     = progress w ++ (if has_callback then get_reports (get_result r) else []) ∧
     (result o = true ↔ get_exn (get_result r) = None) ∧
     console (final o)
     = console w ++ match get_exn (get_result r) with
                    | Some e => ["[red]❌ Download failed: " +:+ e +:+ "[/red]"]
                    | None => []
                    end).
Proof.
  intros Hsize Hchunks. split.
  - exists (thread_args file_size chunks (file_size `div` chunks)).
    split; [unfold chunk_plan, floordiv; by rewrite decide_False by lia|].
    split; [apply thread_args_length|].
    split; [by apply plan_well_formed|].
    split; [by apply plan_contiguous|].
    split; [by apply plan_non_overlapping|].
    split; [by apply plan_covers|].
    split; [by apply plan_first|].
    split; [by apply plan_last|].
    by apply plan_sum.
  - intros Hsmall r local_path has_callback sched w Hstat o. subst o.
    unfold download_file. rewrite Hstat. rewrite decide_True by done.
    unfold whole_file_get.
    set (w1 := with_fs _ w).
    assert (Hreports : ∀ l v,
              fs (foldl (λ w p, report p w) v l) = fs v ∧
              console (foldl (λ w p, report p w) v l) = console v ∧
              progress (foldl (λ w p, report p w) v l) = progress v ++ l ∧
              open_sessions (foldl (λ w p, report p w) v l) = open_sessions v).
    { induction l as [|q l IH]; intros v; simpl; [by rewrite app_nil_r|].
      destruct (IH (report q v)) as (-> & -> & -> & ->). simpl.
      by rewrite <- app_assoc. }
    set (w2 := if has_callback then _ else w1).
    assert (Hw2 : fs w2 = fs w1 ∧ console w2 = console w ∧
                  progress w2
                  = progress w ++ (if has_callback
                                   then get_reports (get_result r) else []) ∧
                  open_sessions w2 = open_sessions w).
    { subst w2. destruct has_callback.
      - destruct (Hreports (get_reports (get_result r)) w1)
          as (-> & -> & -> & ->). done.
      - simpl. by rewrite app_nil_r. }
    destruct Hw2 as (Hfs & Hcon & Hprog & Hses).
    assert (Hw1 : (∀ p, p ≠ local_path → fs w1 !! p = fs w !! p) ∧
                  fs w1 !! local_path
                  = match get_written (get_result r) with
                    | Some data => Some data
                    | None => fs w !! local_path
                    end).
    { subst w1. simpl. destruct (get_written (get_result r)).
      - split; [intros p Hp; by rewrite lookup_insert_ne|].
        by rewrite lookup_insert_eq.
      - done. }
    destruct Hw1 as [Hframe Hdest].
    destruct (get_exn (get_result r)) as [e|]; simpl;
      rewrite Hfs, Hcon, Hprog, Hses, ?app_nil_r;
      repeat split; try done.
Qed.

Lemma chunk_plan_partitions_file_witness :
  (∃ p, chunk_plan 1048576 4 = Some p ∧
        length p = Z.to_nat 4 ∧
        well_formed p ∧ contiguous p ∧ non_overlapping p ∧
        covers p 1048576 ∧
        (∀ r, p !! 0%nat = Some r → chunk_start r = 0) ∧
        (∀ r, p !! Z.to_nat (4 - 1) = Some r → chunk_end r = 1048576) ∧
        sum_list_Z (range_len <$> p) = 1048576) ∧
  (let o := download_file true remote_1MiB "f" true 4 [] empty_world in
   locals o = None ∧
   open_sessions (final o) = open_sessions empty_world ∧
   (∀ p, p ≠ "f" → fs (final o) !! p = fs empty_world !! p) ∧
   fs (final o) !! "f"
   = match get_written (get_result remote_1MiB) with
     | Some data => Some data
     | None => fs empty_world !! "f"
     end ∧
   progress (final o)
   = progress empty_world ++ (if true then get_reports (get_result remote_1MiB)
                              else []) ∧
   (result o = true ↔ get_exn (get_result remote_1MiB) = None) ∧
   console (final o)
   = console empty_world ++ match get_exn (get_result remote_1MiB) with
                            | Some e =>
                              ["[red]❌ Download failed: " +:+ e +:+ "[/red]"]
                            | None => []
                            end).
Proof.
  destruct (chunk_plan_partitions_file 1048576 4 ltac:(lia) ltac:(lia))
    as [Hplan Hwhole].
  split; [exact Hplan|].
  apply (Hwhole ltac:(unfold small_file_threshold; lia) remote_1MiB "f" true []
           empty_world).
  reflexivity.
Defined.

(** C2. Whenever a worker of a parallel transfer records an error,
    [download_file] returns [False]; every recorded error is printed and
    names its chunk; the destination path is as it was before the call;
    and the chunk file of every worker that finished without an error is
    still on disk, holding what that worker wrote. *)
Theorem worker_error_fails_transfer
    r local_path has_callback file_size chunks sched w i :
  stat_result r = inr file_size →
  small_file_threshold ≤ file_size →
  0 ≤ i < chunks →
  (∃ msg, EvError msg
          ∈ worker_trace r local_path file_size chunks (file_size `div` chunks) i) →
  let trace := worker_trace r local_path file_size chunks (file_size `div` chunks) in
  let o := download_file true r local_path has_callback chunks sched w in
  result o = false ∧
  (∀ j msg, 0 ≤ j < chunks → EvError msg ∈ trace j →
     (∃ e, msg = "Chunk " +:+ pretty j +:+ ": " +:+ e) ∧
     "[red]" +:+ msg +:+ "[/red]" ∈ console (final o)) ∧
  fs (final o) !! local_path = fs w !! local_path ∧
  (∀ j, 0 ≤ j < chunks → (∀ msg, EvError msg ∉ trace j) →
     fs (final o) !! temp_name local_path j = Some (bytes_written (trace j))).
Proof.
  intros Hstat Hbig Hi [msg Hmsg] trace o.
  destruct (failure_outcome r local_path has_callback file_size chunks sched w
              Hstat Hbig ltac:(lia) i msg Hi Hmsg)
    as (Hres & Hother & Htemp & Hcon & _).
  split; [done|]. split; [|split].
  - intros j msg' Hj Hev. split; [|by eapply Hcon].
    subst trace. unfold worker_trace in Hev |- *.
    match type of Hev with _ ∈ download_chunk ?t ?lp ?idx ?s ?e =>
      destruct (download_chunk_errors t lp idx s e) as [Hnil|[e' He']] end.
    + by eapply error_event_iff in Hnil.
    + exists e'. assert (msg' ∈ ["Chunk " +:+ pretty j +:+ ": " +:+ e']) as Hin.
      { rewrite <- He'. apply list_elem_of_omap. by exists (EvError msg'). }
      by apply list_elem_of_singleton in Hin.
  - apply Hother. apply temp_name_not_dest.
  - intros j Hj Hclean. apply Htemp; [done|].
    apply download_chunk_clean_creates. by apply error_event_iff.
Qed.

Lemma worker_error_fails_transfer_witness :
  let trace := worker_trace remote_reset_1 "f" 10485760 3 (10485760 `div` 3) in
  let o := download_file true remote_reset_1 "f" true 3 [2; 1; 1; 0; 1]%nat
                         empty_world in
  result o = false ∧
  (∀ j msg, 0 ≤ j < 3 → EvError msg ∈ trace j →
     (∃ e, msg = "Chunk " +:+ pretty j +:+ ": " +:+ e) ∧
     "[red]" +:+ msg +:+ "[/red]" ∈ console (final o)) ∧
  fs (final o) !! "f" = fs empty_world !! "f" ∧
  (∀ j, 0 ≤ j < 3 → (∀ msg, EvError msg ∉ trace j) →
     fs (final o) !! temp_name "f" j = Some (bytes_written (trace j))).
Proof.
  apply (worker_error_fails_transfer remote_reset_1 "f" true 10485760 3
           [2; 1; 1; 0; 1]%nat empty_world 1).
  - reflexivity.
  - unfold small_file_threshold. lia.
  - lia.
  - exists "Chunk 1: Connection reset by peer". vm_compute.
    do 5 apply list_elem_of_further. apply list_elem_of_here.
Defined.

(** C3, as the design document has it, fails: with two workers that both
    meet the end of data at once, [download_file] returns [True] for a
    10485760-byte remote file and leaves an empty destination. *)
Lemma success_despite_size_mismatch :
  let o := download_file true remote_eof "f" true 2 [] empty_world in
  stat_result remote_eof = inr 10485760 ∧
  result o = true ∧
  fs (final o) !! "f" = Some [] ∧
  console (final o) = [].
Proof. vm_compute. done. Qed.

(** C3, amended. The coordinator makes no size check. A parallel transfer
    of degree [>= 1] that returns [True] had no error recorded by any
    worker, and its destination then holds the chunk files' contents in
    index order, of total size at most [file_size], and of size
    [file_size] exactly when every worker wrote its whole range.
    Conversely it does return [True] whenever no worker recorded an error
    and no file operation of the reassembly raises. *)
Theorem success_is_reported_without_size_check
    r local_path has_callback file_size chunks sched w :
  stat_result r = inr file_size →
  small_file_threshold ≤ file_size →
  1 ≤ chunks →
  let trace := worker_trace r local_path file_size chunks (file_size `div` chunks) in
  let o := download_file true r local_path has_callback chunks sched w in
  (result o = true → ∀ i, 0 ≤ i < chunks → ∀ msg, EvError msg ∉ trace i) ∧
  ((∀ i, 0 ≤ i < chunks → ∀ msg, EvError msg ∉ trace i) →
   no_fault (local_disk r) chunks →
   result o = true) ∧
  (result o = true →
   ∃ contents,
     fs (final o) !! local_path = Some contents ∧
     contents = transferred r local_path file_size chunks ∧
     Z.of_nat (length contents) ≤ file_size ∧
     (Z.of_nat (length contents) = file_size ↔
      ∀ i, 0 ≤ i < chunks →
        Z.of_nat (length (bytes_written (trace i)))
        = range_len (chunk_args file_size chunks (file_size `div` chunks) i))).
Proof.
  intros Hstat Hbig Hchunks trace o.
  assert (Hsize : 0 ≤ file_size) by (unfold small_file_threshold in Hbig; lia).
  split; [|split].
  - apply success_clean; [done..|lia].
  - apply clean_success; [done..|lia].
  - intros Hres.
    destruct (success_outcome r local_path has_callback file_size chunks sched w
                Hstat Hbig ltac:(lia) Hres) as (Hdest & _).
    exists (transferred r local_path file_size chunks).
    split; [done|]. split; [done|].
    by apply transferred_bound.
Qed.

Lemma success_is_reported_without_size_check_witness :
  let trace := worker_trace remote_three_bytes "f" 10485760 2 (10485760 `div` 2) in
  let o := download_file true remote_three_bytes "f" true 2 [1; 0; 0]%nat
                         empty_world in
  (result o = true → ∀ i, 0 ≤ i < 2 → ∀ msg, EvError msg ∉ trace i) ∧
  ((∀ i, 0 ≤ i < 2 → ∀ msg, EvError msg ∉ trace i) →
   no_fault (local_disk remote_three_bytes) 2 →
   result o = true) ∧
  (result o = true →
   ∃ contents,
     fs (final o) !! "f" = Some contents ∧
     contents = transferred remote_three_bytes "f" 10485760 2 ∧
     Z.of_nat (length contents) ≤ 10485760 ∧
     (Z.of_nat (length contents) = 10485760 ↔
      ∀ i, 0 ≤ i < 2 →
        Z.of_nat (length (bytes_written (trace i)))
        = range_len (chunk_args 10485760 2 (10485760 `div` 2) i))).
Proof.
  apply (success_is_reported_without_size_check remote_three_bytes "f" true
           10485760 2 [1; 0; 0]%nat empty_world).
  - reflexivity.
  - unfold small_file_threshold. lia.
  - lia.
Defined.




(** C5, as the design document has it, fails: with two workers that each
    receive three bytes and then the end of data, [download_file] returns
    [True] for a 10485760-byte remote file while the counter stands at 6. *)
Lemma counter_short_of_total_on_success :
  let o := download_file true remote_three_bytes "f" true 2 [1; 0; 0]%nat
                         empty_world in
  stat_result remote_three_bytes = inr 10485760 ∧
  result o = true ∧
  downloaded_bytes <$> locals o = Some 6.
Proof. vm_compute. done. Qed.

(** C5, amended. On every parallel transfer of degree [>= 1] that returns
    [True], the shared counter ends at the number of bytes the workers
    wrote, which is the size of the reassembled destination; it equals
    [file_size] exactly when every worker wrote its whole range. *)
Theorem counter_is_bytes_written
    r local_path has_callback file_size chunks sched w :
  stat_result r = inr file_size →
  small_file_threshold ≤ file_size →
  1 ≤ chunks →
  let trace := worker_trace r local_path file_size chunks (file_size `div` chunks) in
  let o := download_file true r local_path has_callback chunks sched w in
  result o = true →
  ∃ sh contents,
    locals o = Some sh ∧
    fs (final o) !! local_path = Some contents ∧
    downloaded_bytes sh = Z.of_nat (length contents) ∧
    downloaded_bytes sh ≤ file_size ∧
    (downloaded_bytes sh = file_size ↔
     ∀ i, 0 ≤ i < chunks →
       Z.of_nat (length (bytes_written (trace i)))
       = range_len (chunk_args file_size chunks (file_size `div` chunks) i)).
Proof.
  intros Hstat Hbig Hchunks trace o Hres.
  assert (Hsize : 0 ≤ file_size) by (unfold small_file_threshold in Hbig; lia).
  destruct (success_outcome r local_path has_callback file_size chunks sched w
              Hstat Hbig ltac:(lia) Hres) as (Hdest & _ & sh & Hloc & _ & Hcount).
  exists sh, (transferred r local_path file_size chunks).
  split; [done|]. split; [done|]. split; [done|].
  rewrite Hcount. by apply transferred_bound.
Qed.

Lemma counter_is_bytes_written_witness :
  let trace := worker_trace remote_three_bytes "f" 10485760 2 (10485760 `div` 2) in
  let o := download_file true remote_three_bytes "f" true 2 [1; 0; 0]%nat
                         empty_world in
  result o = true ∧
  ∃ sh contents,
    locals o = Some sh ∧
    fs (final o) !! "f" = Some contents ∧
    downloaded_bytes sh = Z.of_nat (length contents) ∧
    downloaded_bytes sh ≤ 10485760 ∧
    (downloaded_bytes sh = 10485760 ↔
     ∀ i, 0 ≤ i < 2 →
       Z.of_nat (length (bytes_written (trace i)))
       = range_len (chunk_args 10485760 2 (10485760 `div` 2) i)).
Proof.
  assert (Hres : result (download_file true remote_three_bytes "f" true 2
                           [1; 0; 0]%nat empty_world) = true)
    by (vm_compute; reflexivity).
  split; [exact Hres|].
  apply (counter_is_bytes_written remote_three_bytes "f" true 10485760 2
           [1; 0; 0]%nat empty_world).
  - reflexivity.
  - unfold small_file_threshold. lia.
  - lia.
  - exact Hres.
Defined.

(** C7, as the design document has it, fails: with degree -1 a 10 MiB
    transfer starts no worker, creates an empty destination and returns
    [True]; with degree 0 a 1 MiB transfer succeeds as well, the degree
    never being looked at. *)
Lemma nonpositive_degree_can_succeed :
  let o := download_file true remote_eof "f" true (-1) [] empty_world in
  let o' := download_file true remote_1MiB "f" true 0 [] empty_world in
  (result o = true ∧ fs (final o) !! "f" = Some [] ∧ console (final o) = []) ∧
  (result o' = true ∧ console (final o') = []).
Proof. vm_compute. done. Qed.

(** C7, amended. With degree 0 and a file at or above the threshold,
    [download_file] returns [False]: the division raises, the outer handler
    prints its generic message, no worker is started and nothing else
    changes. Below the threshold the degree is not inspected at all. There
    is no check of the degree and no error kind for it. *)
Theorem zero_degree_fails_in_division
    r local_path has_callback sched w file_size :
  stat_result r = inr file_size →
  (small_file_threshold ≤ file_size →
   download_file true r local_path has_callback 0 sched w
   = mkOutcome false
       (print ("[red]❌ Download failed: " +:+ ZeroDivisionError +:+ "[/red]") w)
       None) ∧
  (file_size < small_file_threshold →
   ∀ chunks, download_file true r local_path has_callback chunks sched w
             = whole_file_get r local_path has_callback w).
Proof.
  intros Hstat. unfold download_file. rewrite Hstat. split.
  - intros Hbig. by rewrite decide_False by lia.
  - intros Hsmall chunks. by rewrite decide_True.
Qed.

Lemma zero_degree_fails_in_division_witness :
  stat_result remote_eof = inr 10485760 ∧
  (small_file_threshold ≤ 10485760 →
   download_file true remote_eof "f" true 0 [] empty_world
   = mkOutcome false
       (print ("[red]❌ Download failed: " +:+ ZeroDivisionError +:+ "[/red]")
              empty_world)
       None) ∧
  (10485760 < small_file_threshold →
   ∀ chunks, download_file true remote_eof "f" true chunks [] empty_world
             = whole_file_get remote_eof "f" true empty_world).
Proof.
  split; [reflexivity|].
  apply (zero_degree_fails_in_division remote_eof "f" true [] empty_world
           10485760).
  reflexivity.
Defined.

(** C9 on the code. Worker 1 of three connects, reads two bytes and then
    loses its connection. Under every schedule the transfer fails with
    that worker's error printed, and the worker's session is still
    connected when [download_file] returns, while the sessions of the two
    workers that finished normally are closed: the [close] calls sit after
    the read loop, on the normal path only. *)
Theorem failed_worker_keeps_session_open sched has_callback :
  let o := download_file true remote_reset_1 "f" has_callback 3 sched
                         empty_world in
  result o = false ∧
  "[red]Chunk 1: Connection reset by peer[/red]" ∈ console (final o) ∧
  1 ∈ open_sessions (final o) ∧
  (0 ∉ open_sessions (final o)) ∧
  (2 ∉ open_sessions (final o)).
Proof.
  intros o.
  assert (Hev : EvError "Chunk 1: Connection reset by peer"
                ∈ worker_trace remote_reset_1 "f" 10485760 3 (10485760 `div` 3) 1).
  { vm_compute. do 5 apply list_elem_of_further. apply list_elem_of_here. }
  destruct (failure_outcome remote_reset_1 "f" has_callback 10485760 3 sched
              empty_world eq_refl ltac:(unfold small_file_threshold; lia)
              ltac:(lia) 1 _ ltac:(lia) Hev)
    as (Hres & _ & _ & Hcon & Hses).
  split; [done|]. split; [exact (Hcon 1 _ ltac:(lia) Hev)|].
  split; [|split].
  - pose proof (Hses 1 ltac:(lia)) as H1.
    match type of H1 with _ = ?rhs =>
      assert (Ht : rhs = true) by (vm_compute; reflexivity); rewrite Ht in H1
    end.
    by apply bool_decide_eq_true_1 in H1.
  - pose proof (Hses 0 ltac:(lia)) as H0.
    match type of H0 with _ = ?rhs =>
      assert (Ht : rhs = false) by (vm_compute; reflexivity); rewrite Ht in H0
    end.
    by apply bool_decide_eq_false_1 in H0.
  - pose proof (Hses 2 ltac:(lia)) as H2.
    match type of H2 with _ = ?rhs =>
      assert (Ht : rhs = false) by (vm_compute; reflexivity); rewrite Ht in H2
    end.
    by apply bool_decide_eq_false_1 in H2.
Qed.

End TransferFacts.

Module ListingFacts.
Import Transfer Listing.

Section sorting.
Context {A : Type} (key : A → Z).

Abbreviation key_le := (λ x y : A, key x ≤ key y).

Lemma insert_by_Permutation x l : insert_by key x l ≡ₚ x :: l.
Proof.
  induction l as [|y l IH]; simpl; [done|].
  case_decide; [done|]. by rewrite IH, Permutation_swap.
Qed.

Lemma insert_by_sorted x l :
  StronglySorted key_le l → StronglySorted key_le (insert_by key x l).
Proof.
  induction 1 as [|y l Hsorted IH Hall]; simpl.
  - repeat constructor.
  - case_decide as Hxy.
    + constructor; [by constructor|]. constructor; [done|].
      eapply Forall_impl; [exact Hall|]. simpl. intros z Hz. lia.
    + constructor; [done|].
      rewrite insert_by_Permutation. constructor; [lia|done].
Qed.

Lemma sort_by_key_Permutation l : sort_by_key key l ≡ₚ l.
Proof.
  induction l as [|x l IH]; simpl; [done|].
  by rewrite insert_by_Permutation, IH.
Qed.

Lemma sort_by_key_sorted l : StronglySorted key_le (sort_by_key key l).
Proof.
  induction l as [|x l IH]; simpl; [constructor|]. by apply insert_by_sorted.
Qed.

(** Stability: the elements of any one key keep their order. *)
Lemma insert_by_filter k x l :
  StronglySorted key_le l →
  filter (λ y, key y = k) (insert_by key x l)
  = filter (λ y, key y = k) (x :: l).
Proof.
  induction 1 as [|y l Hsorted IH Hall]; simpl; [done|].
  case_decide as Hxy; [done|].
  destruct (decide (key y = k)) as [Hy|Hy].
  - rewrite (filter_cons_True _ y) by done. rewrite IH.
    rewrite (filter_cons_False _ x) by lia.
    rewrite (filter_cons_False _ x) by lia.
    by rewrite filter_cons_True.
  - rewrite (filter_cons_False _ y) by done. rewrite IH.
    destruct (decide (key x = k)).
    + rewrite !(filter_cons_True _ x) by done. by rewrite filter_cons_False.
    + rewrite !(filter_cons_False _ x) by done. by rewrite filter_cons_False.
Qed.

Lemma sort_by_key_stable k l :
  filter (λ y, key y = k) (sort_by_key key l) = filter (λ y, key y = k) l.
Proof.
  induction l as [|x l IH]; simpl; [done|].
  rewrite insert_by_filter by apply sort_by_key_sorted.
  destruct (decide (key x = k)).
  - rewrite !(filter_cons_True _ x) by done. by rewrite IH.
  - rewrite !(filter_cons_False _ x) by done. by rewrite IH.
Qed.
End sorting.

Lemma sorted_by_negated_mtime (l : list file_info) :
  StronglySorted (λ x y, - mtime x ≤ - mtime y) l →
  StronglySorted (λ x y, mtime y ≤ mtime x) l.
Proof.
  induction 1 as [|x l _ IH Hall]; constructor; [done|].
  eapply Forall_impl; [exact Hall|]. simpl. intros y Hy. lia.
Qed.

Lemma filter_mtime_negated t (l : list file_info) :
  filter (λ x, mtime x = t) l = filter (λ x, - mtime x = - t) l.
Proof.
  induction l as [|x l IH]; [done|].
  destruct (decide (mtime x = t)) as [Hx|Hx].
  - rewrite !filter_cons_True by lia. by rewrite IH.
  - rewrite !filter_cons_False by lia. done.
Qed.

(** C10, as stated, fails: two entries last modified at the same second
    come out next to each other, in the order the server listed them, so
    the result is not strictly descending. *)
Lemma equal_times_are_not_strictly_descending :
  let l := (list_directory (Some (λ _, inr same_second_listing)) "/srv").1 in
  name <$> l = ["docs"; "new.txt"; "old.txt"] ∧
  mtime <$> l = [1700000500; 1700000500; 1700000000] ∧
  ¬ StronglySorted (λ x y, mtime y < mtime x) l.
Proof.
  intros l.
  assert (Hl : l = [ mkInfo "docs" 4096 1700000500 true 16877;
                     mkInfo "new.txt" 20 1700000500 false 33188;
                     mkInfo "old.txt" 10 1700000000 false 33188 ])
    by (vm_compute; reflexivity).
  clearbody l. subst l. split; [done|]. split; [done|].
  intros Hsorted. apply StronglySorted_inv in Hsorted as [_ Hall].
  apply Forall_cons in Hall as [Hlt _]. simpl in Hlt. lia.
Qed.

(** C10, amended. A listing that is retrieved comes back as the same
    entries ordered by modification time, newest first and never
    ascending, whatever their type, with entries of equal time in the
    order the server listed them; when the listing raises, or no
    connection is established, the result is the empty list. *)
Theorem list_directory_newest_first sftp_client path :
  match sftp_client with
  | None => (list_directory sftp_client path).1 = []
  | Some listdir_attr =>
    match listdir_attr path with
    | inl e => (list_directory sftp_client path).1 = []
    | inr attrs =>
      let l := (list_directory sftp_client path).1 in
      l ≡ₚ to_file_info <$> attrs ∧
      StronglySorted (λ x y, mtime y ≤ mtime x) l ∧
      ∀ t, filter (λ x, mtime x = t) l
           = filter (λ x, mtime x = t) (to_file_info <$> attrs)
    end
  end.
Proof.
  destruct sftp_client as [listdir_attr|]; [|done].
  unfold list_directory. destruct (listdir_attr path) as [e|attrs]; [done|].
  simpl. split; [apply sort_by_key_Permutation|]. split.
  - apply sorted_by_negated_mtime, sort_by_key_sorted.
  - intros t. rewrite !filter_mtime_negated. apply sort_by_key_stable.
Qed.

End ListingFacts.

Module FloatFacts.
Import PyFloat Cache.

Lemma two_pow_pos e : (0 < 2 ^ e)%Q.
Proof. by apply Qpower_0_lt. Qed.

(** A float as an integer multiple of a smaller power of two. *)
Lemma value_scaled x e :
  e ≤ expo x →
  (value x == inject_Z (mant x * 2 ^ (expo x - e)) * 2 ^ e)%Q.
Proof.
  intros He. unfold value.
  rewrite inject_Z_mult, Zpower_Qpower by lia.
  replace (expo x) with ((expo x - e) + e) at 1 by lia.
  rewrite Qpower_plus by done. change (inject_Z 2) with 2%Q. ring.
Qed.

(** What fits in 53 bits is not rounded. *)
Lemma round_small m e :
  Z.abs m < 2 ^ 53 → -1074 ≤ e ≤ 971 →
  round_to_float m e = Some (mkFloat m e).
Proof.
  intros Hm He. unfold round_to_float.
  assert (Hs : Z.max 0 (Z.log2 (Z.abs m) + 1 - 53) = 0).
  { destruct (decide (Z.abs m = 0)) as [->|Hne]; [done|].
    assert (Z.log2 (Z.abs m) < 53) by (apply Z.log2_lt_pow2; lia). lia. }
  rewrite Hs. change (2 ^ 0) with 1.
  rewrite Z.div_1_r, Z.mod_1_r. simpl.
  rewrite Z.add_0_r.
  assert (Hpow : 0 < 2 ^ (e + 1074) ≤ 2 ^ 2045).
  { split; [apply Z.pow_pos_nonneg; lia|apply Z.pow_le_mono_r; lia]. }
  rewrite decide_True.
  - rewrite decide_False by lia. f_equal. f_equal.
    rewrite Z.mul_comm. apply Z.abs_sgn.
  - change (2 ^ 2098) with (2 ^ 53 * 2 ^ 2045). nia.
Qed.

(** The difference of two floats within a factor of two of each other is
    a float, so their subtraction does not round. *)
Lemma fsub_exact x y :
  is_float x → is_float y →
  (0 < value y)%Q → (value y <= 2 * value x)%Q → (value x <= 2 * value y)%Q →
  ∃ d, fsub x y = Some d ∧ (value d == value x - value y)%Q.
Proof.
  intros [Hmx Hex] [Hmy Hey] Hpos Hlo Hhi.
  set (e := expo x `min` expo y).
  pose proof (value_scaled x e ltac:(lia)) as Hx.
  pose proof (value_scaled y e ltac:(lia)) as Hy.
  set (X := mant x * 2 ^ (expo x - e)) in *.
  set (Y := mant y * 2 ^ (expo y - e)) in *.
  pose proof (two_pow_pos e) as Hp.
  assert (HY : 0 < Y).
  { rewrite Zlt_Qlt. apply (Qmult_lt_r _ _ _ Hp). by rewrite <- Hy, Qmult_0_l. }
  assert (HYX : Y ≤ 2 * X).
  { rewrite Zle_Qle. apply (Qmult_le_r _ _ _ Hp).
    rewrite inject_Z_mult, <- Qmult_assoc, <- Hx, <- Hy. done. }
  assert (HXY : X ≤ 2 * Y).
  { rewrite Zle_Qle. apply (Qmult_le_r _ _ _ Hp).
    rewrite inject_Z_mult, <- Qmult_assoc, <- Hx, <- Hy. done. }
  assert (Hm : Z.abs (X - Y) < 2 ^ 53).
  { destruct (decide (expo x ≤ expo y)).
    - assert (X = mant x) as HX.
      { subst X e. rewrite Z.min_l, Z.sub_diag by done. simpl. lia. }
      lia.
    - assert (Y = mant y) as HY'.
      { subst Y e. rewrite Z.min_r, Z.sub_diag by lia. simpl. lia. }
      lia. }
  exists (mkFloat (X - Y) e). split.
  - unfold fsub. fold e X Y. apply round_small; [done|lia].
  - rewrite Hx, Hy. unfold value. simpl.
    unfold Z.sub at 1. rewrite inject_Z_plus, inject_Z_opp. ring.
Qed.

(** Where the subtraction does round, it rounds as the Standard Library's
    IEEE 754 subtraction does: 300.1 - 0.1, 10.1 - 0.1, 0.1 - 300.1 and
    a tie, (2^53 - 1) + 0.5. *)
Lemma fsub_rounds_as_binary64 :
  Forall (λ xy, to_spec <$> fsub xy.1 xy.2
                = Some (SFsub 53 1024 (to_spec xy.1) (to_spec xy.2)))
    [ (mkFloat 5279415031929242 (-44), mkFloat 7205759403792794 (-56));
      (mkFloat 5685794529555251 (-49), mkFloat 7205759403792794 (-56));
      (mkFloat 7205759403792794 (-56), mkFloat 5279415031929242 (-44));
      (mkFloat 9007199254740991 0, mkFloat (-1) (-1)) ].
Proof. repeat constructor. Qed.

(** [int] truncates toward zero. *)
Lemma int_of_Q_le_Z q m : (q <= inject_Z m)%Q → int_of_Q q ≤ m.
Proof.
  unfold Qle, int_of_Q. simpl. intros Hle.
  apply Z.quot_le_upper_bound; lia.
Qed.

Lemma int_of_Q_floor q :
  (0 <= q)%Q →
  0 ≤ int_of_Q q ∧ (inject_Z (int_of_Q q) <= q)%Q ∧ (q < inject_Z (int_of_Q q + 1))%Q.
Proof.
  unfold Qle, Qlt, int_of_Q. simpl. intros Hq.
  assert (Hn : 0 ≤ Qnum q) by lia.
  pose proof (Z.mul_quot_le (Qnum q) (Z.pos (Qden q)) Hn ltac:(lia)).
  pose proof (Z.mul_succ_quot_gt (Qnum q) (Z.pos (Qden q)) Hn ltac:(lia)).
  pose proof (Z.quot_pos (Qnum q) (Z.pos (Qden q)) Hn ltac:(lia)).
  split; [done|]. split; lia.
Qed.

Lemma int_of_Q_ceil q :
  (q <= 0)%Q →
  int_of_Q q ≤ 0 ∧ (q <= inject_Z (int_of_Q q))%Q ∧ (inject_Z (int_of_Q q - 1) < q)%Q.
Proof.
  intros Hq.
  destruct (int_of_Q_floor (- q)%Q) as (H0 & Hle & Hlt).
  { apply (Qopp_le_compat q 0) in Hq. exact Hq. }
  assert (Hopp : int_of_Q (- q) = - int_of_Q q).
  { unfold int_of_Q. simpl. by apply Z.quot_opp_l. }
  rewrite Hopp in *. clear Hopp.
  revert H0 Hle Hlt. unfold Qle, Qlt, int_of_Q. simpl. lia.
Qed.

(** The whole seconds in a float, given the number it stands for. *)
Lemma int_of_Q_whole d elapsed :
  (d == elapsed)%Q →
  ((0 <= elapsed)%Q →
   0 ≤ int_of_Q d ∧ (inject_Z (int_of_Q d) <= elapsed)%Q ∧
   (elapsed < inject_Z (int_of_Q d + 1))%Q) ∧
  ((elapsed <= 0)%Q →
   int_of_Q d ≤ 0 ∧ (elapsed <= inject_Z (int_of_Q d))%Q ∧
   (inject_Z (int_of_Q d - 1) < elapsed)%Q).
Proof.
  intros Hd. split; intros Hsign; rewrite <- Hd in Hsign |- *.
  - by apply int_of_Q_floor.
  - by apply int_of_Q_ceil.
Qed.

End FloatFacts.

Module CacheFacts.
Import Listing PyFloat Cache FloatFacts.

(** C6, as the design document has it, fails at the edge of [max_age]:
    with the clock reading 0.1 at the [set] and 300.1 at the [get], more
    than 300 seconds lie between the two readings, yet the float
    subtraction rounds their difference to 300.0, which is not above
    [max_age = 300], and [get] answers, with age 300. *)
Lemma late_get_still_hits :
  let t0 := mkFloat 7205759403792794 (-56) in
  let t1 := mkFloat 5279415031929242 (-44) in
  let entries := to_file_info <$> same_second_listing in
  let cached := set id (mkCache ∅ 300) t0 "/remote/dir" entries (Some ∅) in
  is_float t0 ∧ is_float t1 ∧
  (inject_Z (max_age cached) < value t1 - value t0)%Q ∧
  get id cached t1 "/remote/dir" = Some (entries, 300, ∅).
Proof.
  cbv zeta. split; [|split; [|split]].
  - vm_compute. split; [reflexivity|]. split; discriminate.
  - vm_compute. split; [reflexivity|]. split; discriminate.
  - vm_compute. reflexivity.
  - vm_compute. reflexivity.
Qed.

(** C6, amended. Let the clock readings at the [set] and at the [get] be
    positive floats within a factor of two of each other, as any two
    readings of a clock that counts from 1970 are unless they lie further
    apart than the first lies from 1970. Then, whatever the hash, the
    path, the entries and the folder sizes: a [get] whose reading is at
    most [max_age] seconds after that of the [set] returns the entries and
    folder sizes given to [set], with the seconds elapsed cut to a whole
    number; a [get] more than [max_age] seconds after the [set] returns
    [None]. *)
Theorem get_after_set md5_hexdigest self t0 t1 path entries sizes :
  is_float t0 → is_float t1 →
  (0 < value t0)%Q →
  (value t0 <= 2 * value t1)%Q →
  (value t1 <= 2 * value t0)%Q →
  let cached := set md5_hexdigest self t0 path entries (Some sizes) in
  let elapsed := (value t1 - value t0)%Q in
  ((elapsed <= inject_Z (max_age self))%Q →
   ∃ age,
     get md5_hexdigest cached t1 path = Some (entries, age, sizes) ∧
     ((0 <= elapsed)%Q →
      0 ≤ age ∧ (inject_Z age <= elapsed)%Q ∧ (elapsed < inject_Z (age + 1))%Q) ∧
     ((elapsed <= 0)%Q →
      age ≤ 0 ∧ (elapsed <= inject_Z age)%Q ∧ (inject_Z (age - 1) < elapsed)%Q)) ∧
  ((inject_Z (max_age self) < elapsed)%Q →
   get md5_hexdigest cached t1 path = None).
Proof.
  intros Hf0 Hf1 Hpos Hlo Hhi cached elapsed. subst cached elapsed.
  destruct (fsub_exact t1 t0 Hf1 Hf0 Hpos Hlo Hhi) as (d & Hsub & Hd).
  unfold get, set. simpl.
  rewrite lookup_insert_eq. simpl. rewrite Hsub.
  assert (Hsizes : (if decide (sizes = ∅) then ∅ else sizes) = sizes)
    by (by case_decide).
  split; intros Hage.
  - exists (int_of_Q (value d)).
    destruct (Qlt_le_dec _ _) as [Hlt|_].
    + exfalso. rewrite Hd in Hlt. eapply Qlt_not_le; eassumption.
    + rewrite Hsizes. split; [done|]. by apply int_of_Q_whole.
  - destruct (Qlt_le_dec _ _) as [_|Hle]; [done|].
    exfalso. rewrite Hd in Hle. eapply Qlt_not_le; eassumption.
Qed.

(** The scenario of the design document: ten and a half seconds after a
    [set] with no folder sizes, at the clock readings 1700000000.25 and
    1700000010.75 and under the default [max_age] of 300, the entry is
    served. The hash plays no part, so any function stands in for it. *)
Lemma get_after_set_witness :
  let self := mkCache ∅ 300 in
  let entries := to_file_info <$> same_second_listing in
  let t0 := mkFloat 7130316801048576 (-22) in
  let t1 := mkFloat 7130316845088768 (-22) in
  let elapsed := (value t1 - value t0)%Q in
  (elapsed <= inject_Z 300)%Q ∧
  ∃ age,
    get id (set id self t0 "/remote/dir" entries (Some ∅)) t1 "/remote/dir"
    = Some (entries, age, ∅) ∧
    0 ≤ age ∧ (inject_Z age <= elapsed)%Q ∧ (elapsed < inject_Z (age + 1))%Q.
Proof.
  cbv zeta.
  assert (Hage : (value (mkFloat 7130316845088768 (-22))
                  - value (mkFloat 7130316801048576 (-22)) <= inject_Z 300)%Q)
    by (vm_compute; discriminate).
  split; [exact Hage|].
  assert (Hf0 : is_float (mkFloat 7130316801048576 (-22)))
    by (split; [reflexivity|simpl; lia]).
  assert (Hf1 : is_float (mkFloat 7130316845088768 (-22)))
    by (split; [reflexivity|simpl; lia]).
  assert (Hpos : (0 < value (mkFloat 7130316801048576 (-22)))%Q)
    by reflexivity.
  assert (Hlo : (value (mkFloat 7130316801048576 (-22))
                 <= 2 * value (mkFloat 7130316845088768 (-22)))%Q)
    by (vm_compute; discriminate).
  assert (Hhi : (value (mkFloat 7130316845088768 (-22))
                 <= 2 * value (mkFloat 7130316801048576 (-22)))%Q)
    by (vm_compute; discriminate).
  destruct (proj1 (get_after_set id (mkCache ∅ 300)
                     (mkFloat 7130316801048576 (-22))
                     (mkFloat 7130316845088768 (-22)) "/remote/dir"
                     (to_file_info <$> same_second_listing) ∅
                     Hf0 Hf1 Hpos Hlo Hhi) Hage)
    as (age & Hget & Hwhole & _).
  exists age. split; [exact Hget|].
  apply Hwhole. vm_compute. discriminate.
Defined.

End CacheFacts.

Module RoundTripFacts.
Import Planner PlannerFacts Transfer TransferFacts Scenarios RemoteFile.












End RoundTripFacts.

Module ConcurrencyFacts.
Import Planner PlannerFacts Interleave InterleaveFacts Transfer TransferFacts.
Import Scenarios Steps.

(** When at most one thread has anything to do, all runs coincide. *)
Lemma interleave_unique {A} (pend : list (list A)) run1 run2 :
  interleave pend run1 → interleave pend run2 →
  (∀ (j k : nat) l l', pend !! j = Some l → pend !! k = Some l' →
                       l ≠ [] → l' ≠ [] → j = k) →
  run1 = run2.
Proof.
  intros H1. revert run2.
  induction H1 as [pend Hnil|pend t x l run Ht _ IH]; intros run2 H2 Huniq.
  - symmetry. by eapply interleave_all_nil.
  - inversion H2 as [pend' Hnil|pend' t' x' l' run' Ht' Hrun']; subst.
    + rewrite Forall_lookup in Hnil. by specialize (Hnil _ _ Ht).
    + assert (t = t') as <- by (by eapply Huniq).
      simplify_eq. f_equal. apply IH; [done|].
      assert (Hlt : (t < length pend)%nat) by (by eapply lookup_lt_Some).
      intros j k l1 l2 Hj Hk Hl1 Hl2.
      assert (∀ i li, <[t:=l]> pend !! i = Some li → li ≠ [] → i = t) as Hone.
      { intros i li Hi Hli. destruct (decide (i = t)) as [|Hne]; [done|].
        rewrite list_lookup_insert_ne in Hi by done.
        by eapply Huniq. }
      by rewrite (Hone j l1), (Hone k l2).
Qed.

Section schedules.
Variables (r : remote) (local_path : string) (has_callback : bool).
Variables (file_size chunks chunk_size : Z) (w : world) (sh : shared).

Let traces := worker_traces r local_path file_size chunks chunk_size.

(** What is done to one file, or to one session, is done by one worker,
    so it is the same in every run. *)
Lemma file_actions_unique p run1 run2 :
  interleave traces run1 → interleave traces run2 →
  filter (touches p) run1 = filter (touches p) run2.
Proof.
  intros H1 H2.
  apply (interleave_filter (touches p)) in H1, H2.
  eapply interleave_unique; [exact H1|exact H2|].
  intros j k l l'. rewrite !list_lookup_fmap, !fmap_Some.
  intros (tr & [Hj ->]%worker_traces_lookup & ->)
         (tr' & [Hk ->]%worker_traces_lookup & ->) Hl Hl'.
  unfold worker_trace in Hl, Hl'.
  destruct (decide (p = temp_name local_path (Z.of_nat j))) as [->|Hnj];
    [|by rewrite download_chunk_other_file in Hl].
  destruct (decide (temp_name local_path (Z.of_nat j)
                    = temp_name local_path (Z.of_nat k))) as [Heq|Hnk];
    [|by rewrite download_chunk_other_file in Hl'].
  apply temp_name_inj in Heq. lia.
Qed.

Lemma session_actions_unique idx run1 run2 :
  interleave traces run1 → interleave traces run2 →
  filter (on_session idx) run1 = filter (on_session idx) run2.
Proof.
  intros H1 H2.
  apply (interleave_filter (on_session idx)) in H1, H2.
  eapply interleave_unique; [exact H1|exact H2|].
  intros j k l l'. rewrite !list_lookup_fmap, !fmap_Some.
  intros (tr & [Hj ->]%worker_traces_lookup & ->)
         (tr' & [Hk ->]%worker_traces_lookup & ->) Hl Hl'.
  unfold worker_trace in Hl, Hl'.
  destruct (decide (idx = Z.of_nat j)) as [->|Hnj];
    [|by rewrite download_chunk_other_session in Hl].
  destruct (decide (Z.of_nat j = Z.of_nat k)) as [Heq|Hnk];
    [lia|by rewrite download_chunk_other_session in Hl'].
Qed.

(** The state the threads leave does not depend on the schedule, up to
    the order of the recorded errors. *)
Lemma run_threads_schedule sched1 sched2 :
  let a1 := run_threads has_callback file_size sched1 traces (w, sh) in
  let a2 := run_threads has_callback file_size sched2 traces (w, sh) in
  fs a1.1 = fs a2.1 ∧
  open_sessions a1.1 = open_sessions a2.1 ∧
  console a1.1 = console a2.1 ∧
  errors a1.2 ≡ₚ errors a2.2 ∧
  downloaded_bytes a1.2 = downloaded_bytes a2.2.
Proof.
  intros a1 a2.
  pose proof (run_threads_errors r local_path has_callback file_size chunks
                chunk_size sched1 w sh) as He1.
  pose proof (run_threads_errors r local_path has_callback file_size chunks
                chunk_size sched2 w sh) as He2.
  pose proof (run_threads_bytes r local_path has_callback file_size chunks
                chunk_size sched1 w sh) as Hb1.
  pose proof (run_threads_bytes r local_path has_callback file_size chunks
                chunk_size sched2 w sh) as Hb2.
  pose proof (run_threads_console r local_path has_callback file_size chunks
                chunk_size sched1 w sh) as Hc1.
  pose proof (run_threads_console r local_path has_callback file_size chunks
                chunk_size sched2 w sh) as Hc2.
  subst a1 a2. fold traces in He1, He2, Hb1, Hb2, Hc1, Hc2.
  destruct (run_threads_interleave has_callback file_size sched1 traces (w, sh))
    as (run1 & Hrun1 & E1).
  destruct (run_threads_interleave has_callback file_size sched2 traces (w, sh))
    as (run2 & Hrun2 & E2).
  split; [|split; [|split; [|split]]].
  - apply map_eq. intros p. rewrite E1, E2, !run_events_fs.
    by rewrite (file_actions_unique p run1 run2).
  - apply set_eq. intros idx.
    assert (Hb : bool_decide (idx ∈ open_sessions
                   (run_threads has_callback file_size sched1 traces (w, sh)).1)
                 = bool_decide (idx ∈ open_sessions
                   (run_threads has_callback file_size sched2 traces (w, sh)).1)).
    { rewrite E1, E2, !run_events_sessions.
      by rewrite (session_actions_unique idx run1 run2). }
    split; intros Hin.
    + apply (bool_decide_eq_true_2 _) in Hin. rewrite Hb in Hin.
      by apply bool_decide_eq_true_1 in Hin.
    + apply (bool_decide_eq_true_2 _) in Hin. rewrite <- Hb in Hin.
      by apply bool_decide_eq_true_1 in Hin.
  - by rewrite Hc1, Hc2.
  - by rewrite He1, He2.
  - by rewrite Hb1, Hb2.
Qed.
End schedules.

(** X2. The order in which the worker threads happen to run changes
    nothing a caller can rely on: under any two schedules [download_file]
    returns the same result, leaves the same files with the same contents
    and the same sessions connected, ends with the same counter, and prints
    the same lines, in a possibly different order. *)
Theorem outcome_independent_of_schedule
    connected r local_path has_callback chunks sched1 sched2 w :
  let o1 := download_file connected r local_path has_callback chunks sched1 w in
  let o2 := download_file connected r local_path has_callback chunks sched2 w in
  result o1 = result o2 ∧
  fs (final o1) = fs (final o2) ∧
  open_sessions (final o1) = open_sessions (final o2) ∧
  console (final o1) ≡ₚ console (final o2) ∧
  downloaded_bytes <$> locals o1 = downloaded_bytes <$> locals o2.
Proof.
  unfold download_file.
  destruct connected; [|done].
  destruct (stat_result r) as [e|file_size]; [done|].
  case_decide; [done|].
  destruct (floordiv file_size chunks) as [chunk_size|]; [|done].
  destruct (run_threads_schedule r local_path has_callback file_size chunks
              chunk_size w (mkShared [] [] 0) sched1 sched2)
    as (Hfs & Hses & Hcon & Herr & Hbytes).
  destruct (run_threads _ _ sched1 _ _) as [w1 sh1].
  destruct (run_threads _ _ sched2 _ _) as [w2 sh2].
  cbn [fst snd] in *.
  destruct (errors sh1) as [|e1 l1] eqn:E1, (errors sh2) as [|e2 l2] eqn:E2.
  - rewrite Hfs.
    destruct (open_output_result (local_disk r));
      [cbn; rewrite ?Hfs, ?Hses, ?Hcon, ?Hbytes; done|].
    destruct (reassemble _ _ _ _) as [m e].
    destruct (close_output _ _ _ _) as [m' [e'|]];
      cbn; rewrite ?Hcon, ?Hbytes; done.
  - by apply Permutation_nil_cons in Herr.
  - symmetry in Herr. by apply Permutation_nil_cons in Herr.
  - cbn [result final locals fmap option_fmap option_map].
    destruct (print_errors_world w1 (e1 :: l1)) as (-> & -> & ->).
    destruct (print_errors_world w2 (e2 :: l2)) as (-> & -> & ->).
    rewrite Hcon, Hbytes. repeat split; try done.
    apply Permutation_app; [done|]. by apply fmap_Permutation.
Qed.

(** *** What a transfer leaves alone *)

Lemma run_threads_foreign_file r local_path has_callback file_size chunks
    chunk_size sched w sh p :
  (∀ i, 0 ≤ i < chunks → p ≠ temp_name local_path i) →
  fs (run_threads has_callback file_size sched
        (worker_traces r local_path file_size chunks chunk_size) (w, sh)).1 !! p
  = fs w !! p.
Proof.
  intros Hp.
  destruct (run_threads_interleave has_callback file_size sched
              (worker_traces r local_path file_size chunks chunk_size) (w, sh))
    as (run & Hrun & ->).
  rewrite run_events_fs. simpl.
  apply (interleave_filter (touches p)) in Hrun.
  apply interleave_all_nil in Hrun as ->; [done|].
  apply Forall_fmap, Forall_lookup. intros k tr [Hk ->]%worker_traces_lookup.
  simpl. apply download_chunk_other_file. apply Hp. lia.
Qed.

Lemma reassemble_frame dk local_path idxs m p :
  p ≠ local_path → (∀ i, i ∈ idxs → p ≠ temp_name local_path i) →
  (reassemble dk local_path idxs m).1 !! p = m !! p.
Proof.
  revert m. induction idxs as [|i idxs IH]; intros m Hp Hne; simpl; [done|].
  destruct (m !! temp_name local_path i) as [data|]; [|done].
  destruct (open_chunk_result dk i); [done|].
  destruct (write_result dk i) as [[e n]|];
    [simpl; unfold append_file; by rewrite lookup_insert_ne|].
  destruct (remove_result dk i);
    [simpl; unfold append_file; by rewrite lookup_insert_ne|].
  rewrite IH; [|done|intros j Hj; apply Hne; by right].
  rewrite lookup_delete_ne by (apply not_eq_sym, Hne; by left).
  unfold append_file. by rewrite lookup_insert_ne.
Qed.

(** X3. A call of [download_file] changes no file other than the
    destination and the destination's own [.part<i>] files for
    [0 <= i < chunks]: whatever the connection state, the remote side, the
    degree and the schedule, every other path is afterwards as it was. *)
Theorem download_file_touches_only_its_files
    connected r local_path has_callback chunks sched w p :
  p ≠ local_path →
  (∀ i, 0 ≤ i < chunks → p ≠ temp_name local_path i) →
  fs (final (download_file connected r local_path has_callback chunks sched w))
    !! p
  = fs w !! p.
Proof.
  intros Hp Hne. unfold download_file.
  destruct connected; [|done].
  destruct (stat_result r) as [e|file_size]; [done|].
  case_decide.
  - unfold whole_file_get.
    assert (Hget : fs (with_fs (λ m, match get_written (get_result r) with
                                    | Some data => <[local_path:=data]> m
                                    | None => m
                                    end) w) !! p = fs w !! p).
    { simpl. destruct (get_written _); [by rewrite lookup_insert_ne|done]. }
    assert (Hrep : ∀ l w', fs (foldl (λ w p, report p w) w' l) = fs w').
    { induction l as [|x l IHl]; intros w'; simpl; [done|]. by rewrite IHl. }
    destruct has_callback, (get_exn (get_result r)); simpl;
      rewrite ?Hrep; exact Hget.
  - destruct (floordiv file_size chunks) as [chunk_size|]; [|done].
    pose proof (run_threads_foreign_file r local_path has_callback file_size
                  chunks chunk_size sched w (mkShared [] [] 0) p Hne) as Hrun.
    destruct (run_threads _ _ _ _ _) as [w1 sh1]. cbn [fst] in Hrun.
    destruct (errors sh1) as [|e1 l1].
    + destruct (open_output_result (local_disk r)); [done|].
      pose proof (reassemble_frame (local_disk r) local_path (seqZ 0 chunks)
                    (<[local_path := []]> (fs w1)) p Hp) as Hre.
      assert (Hclose : ∀ m e,
                (close_output (local_disk r) local_path m e).1 !! p = m !! p).
      { intros m e. unfold close_output.
        destruct (close_output_result _) as [[e' n]|]; [|done].
        simpl. by rewrite lookup_insert_ne. }
      destruct (reassemble _ _ _ _) as [m e]. cbn [fst] in Hre.
      specialize (Hclose m e).
      destruct (close_output _ _ _ _) as [m' [e'|]]; cbn [fst] in Hclose; simpl;
        rewrite Hclose, Hre, ?lookup_insert_ne; try done;
        intros i Hi%elem_of_seqZ; apply Hne; lia.
    + cbn [final]. destruct (print_errors_world w1 (e1 :: l1)) as (-> & _).
      done.
Qed.

Lemma download_file_touches_only_its_files_witness :
  fs (final (download_file true remote_three_bytes "f" true 2 [1; 0; 0]%nat
                           (mkWorld {[ "notes.txt" := ["n"%byte] ]} [] [] ∅)))
    !! "notes.txt"
  = fs (mkWorld {[ "notes.txt" := ["n"%byte] ]} [] [] ∅) !! "notes.txt".
Proof.
  apply (download_file_touches_only_its_files true remote_three_bytes "f" true 2
           [1; 0; 0]%nat (mkWorld {[ "notes.txt" := ["n"%byte] ]} [] [] ∅)
           "notes.txt").
  - discriminate.
  - intros i _. unfold temp_name. simpl. discriminate.
Defined.

(** X4. After a parallel transfer that returns [True], no session opened
    by one of its workers is still connected. *)
Theorem success_leaves_no_session_open
    r local_path has_callback file_size chunks sched w i :
  stat_result r = inr file_size →
  small_file_threshold ≤ file_size →
  chunks ≠ 0 →
  result (download_file true r local_path has_callback chunks sched w) = true →
  0 ≤ i < chunks →
  i ∉ open_sessions
        (final (download_file true r local_path has_callback chunks sched w)).
Proof.
  intros Hstat Hbig Hchunks Hres Hi.
  pose proof (success_clean r local_path has_callback file_size
                chunks sched w Hstat Hbig Hchunks Hres i Hi) as Hclean.
  destruct (parallel_success r local_path has_callback file_size chunks sched w
              Hstat Hbig Hchunks) as (m & -> & _); [|done|].
  { apply no_errors_iff; [done|]. intros j Hj. apply error_event_iff.
    exact (success_clean r local_path has_callback file_size
             chunks sched w Hstat Hbig Hchunks Hres j Hj). }
  cbn [final with_fs open_sessions].
  apply (bool_decide_eq_false_1 _).
  rewrite run_threads_session by done.
  apply download_chunk_closes. by apply error_event_iff.
Qed.

Lemma success_leaves_no_session_open_witness :
  1 ∉ open_sessions
        (final (download_file true remote_three_bytes "f" true 2 [1; 0; 0]%nat
                              empty_world)).
Proof.
  apply (success_leaves_no_session_open remote_three_bytes "f" true 10485760 2
           [1; 0; 0]%nat empty_world 1).
  - reflexivity.
  - unfold small_file_threshold. lia.
  - lia.
  - vm_compute. reflexivity.
  - lia.
Defined.

End ConcurrencyFacts.

Module ProgressFacts.
Import Planner PlannerFacts Interleave InterleaveFacts Transfer TransferFacts.
Import Scenarios Steps.

(** *** The steps of one worker *)

Lemma read_loop_bounded temp_file n b rs :
  Forall bounded_step (read_loop temp_file n b rs).1.
Proof.
  revert b. induction rs as [|[e|data] rs IH]; intros b; simpl; [done|..].
  - case_decide; constructor.
  - case_decide; [|constructor].
    assert (Hup : Z.of_nat (length (take (Z.to_nat (65536 `min` (n - b))) data))
                  ≤ 65536) by (rewrite length_take; lia).
    destruct (take _ data) as [|x chunk_data] eqn:Htake; [constructor|].
    assert (Hlen : 0 < Z.of_nat (length (x :: chunk_data)) ≤ 65536)
      by (split; [cbn [length]; lia|done]).
    specialize (IH (b + Z.of_nat (length (x :: chunk_data)))).
    destruct (read_loop _ _ _ rs) as [evs r]; simpl in *.
    repeat constructor; try done; lia.
Qed.

Lemma download_chunk_bounded t local_path idx start end_ :
  Forall bounded_step (download_chunk t local_path idx start end_).
Proof.
  pose proof (read_loop_bounded (temp_name local_path idx) (end_ - start) 0
                (reads t)) as Hb.
  unfold download_chunk.
  destruct (key_loaded t), (connect_result t), (open_sftp_result t),
    (remote_open_result t), (local_open_result t);
    try (repeat constructor; done).
  destruct (read_loop _ _ _ _) as [evs [e|]]; cbn [fst] in *;
    repeat (constructor; [done|]);
    (apply Forall_app; split; [done|by repeat constructor]).
Qed.

Lemma read_loop_paired temp_file n b rs tail :
  paired_steps temp_file tail →
  paired_steps temp_file ((read_loop temp_file n b rs).1 ++ tail).
Proof.
  intros Htail. revert b.
  induction rs as [|[e|data] rs IH]; intros b; simpl; [done|..].
  - by case_decide.
  - case_decide; [|done].
    assert (Hup : Z.of_nat (length (take (Z.to_nat (65536 `min` (n - b))) data))
                  ≤ 65536) by (rewrite length_take; lia).
    destruct (take _ data) as [|x chunk_data] eqn:Htake; [done|].
    specialize (IH (b + Z.of_nat (length (x :: chunk_data)))).
    destruct (read_loop _ _ _ rs) as [evs r]. cbn [fst] in *.
    rewrite <- !app_comm_cons. cbn [paired_steps].
    split; [done|]. split; [cbn [length] in *; lia|]. done.
Qed.

(** X5. Whatever its session does, a worker writes to its own chunk file
    only, in pieces of between 1 and 65536 bytes, each write followed at
    once by the progress step for the same number of bytes and no progress
    step made without its write; in total it writes, and reports, no more
    than the length of its range. *)
Theorem worker_steps_are_bounded t local_path idx start end_ :
  let tr := download_chunk t local_path idx start end_ in
  paired_steps (temp_name local_path idx) tr ∧
  Forall bounded_step tr ∧
  (∀ name data, EvWrite name data ∈ tr → name = temp_name local_path idx) ∧
  bytes_reported tr = Z.of_nat (length (bytes_written tr)) ∧
  Z.of_nat (length (bytes_written tr)) ≤ Z.max 0 (end_ - start).
Proof.
  intros tr. subst tr.
  split; [|split; [|split; [|apply download_chunk_counts]]].
  - unfold download_chunk.
    destruct (key_loaded t), (connect_result t), (open_sftp_result t),
      (remote_open_result t), (local_open_result t); try done.
    cbn [paired_steps].
    pose proof (read_loop_paired (temp_name local_path idx) (end_ - start) 0
                  (reads t)) as Hp.
    destruct (read_loop _ _ _ _) as [evs [e|]]; cbn [fst] in Hp; by apply Hp.
  - apply download_chunk_bounded.
  - intros name data Hin.
    destruct (decide (name = temp_name local_path idx)) as [|Hne]; [done|].
    pose proof (download_chunk_other_file t local_path idx start end_ name Hne)
      as Hnone.
    assert (EvWrite name data
            ∈ filter (touches name) (download_chunk t local_path idx start end_))
      as Hf by (by apply list_elem_of_filter).
    rewrite Hnone in Hf. by apply elem_of_nil in Hf.
Qed.

(** X6. A worker records at most one error: if it records one, that is
    the last thing it does, and the message names the worker's chunk. *)
Theorem worker_error_is_its_last_step t local_path idx start end_ msg :
  EvError msg ∈ download_chunk t local_path idx start end_ →
  last (download_chunk t local_path idx start end_) = Some (EvError msg) ∧
  omap error_of (download_chunk t local_path idx start end_) = [msg] ∧
  ∃ e, msg = "Chunk " +:+ pretty idx +:+ ": " +:+ e.
Proof.
  intros Hin.
  assert (Hmsg : msg ∈ omap error_of (download_chunk t local_path idx start end_))
    by (apply list_elem_of_omap; by exists (EvError msg)).
  destruct (download_chunk_errors t local_path idx start end_) as [Hnil|[e He]].
  { rewrite Hnil in Hmsg. by apply elem_of_nil in Hmsg. }
  rewrite He in Hmsg. apply list_elem_of_singleton in Hmsg as ->.
  split; [|split; [done|by exists e]].
  clear Hin. revert He.
  generalize ("Chunk " +:+ pretty idx +:+ ": " +:+ e). intros m.
  pose proof (read_loop_events (temp_name local_path idx) (end_ - start) 0
                (reads t)) as Hloop.
  unfold download_chunk.
  destruct (read_loop _ _ _ _) as [evs r']. cbn [fst] in Hloop.
  destruct (key_loaded t), (connect_result t), (open_sftp_result t),
    (remote_open_result t), (local_open_result t);
    try (cbn [omap list_omap error_of chunk_error]; intros [= <-]; reflexivity).
  destruct r' as [e'|]; cbn [omap list_omap error_of];
    rewrite omap_error_app, (loop_events_no_error _ _ Hloop); [|done].
  cbn [omap list_omap error_of chunk_error app].
  intros [= <-]. rewrite !last_cons, last_snoc. done.
Qed.

Lemma worker_error_is_its_last_step_witness :
  let tr := download_chunk (serving [inr ["a"%byte]; inl "timed out"]) "f" 2 20 30 in
  last tr = Some (EvError "Chunk 2: timed out") ∧
  omap error_of tr = ["Chunk 2: timed out"] ∧
  ∃ e, "Chunk 2: timed out" = "Chunk " +:+ pretty 2 +:+ ": " +:+ e.
Proof.
  apply (worker_error_is_its_last_step (serving [inr ["a"%byte]; inl "timed out"])
           "f" 2 20 30 "Chunk 2: timed out").
  vm_compute. do 5 apply list_elem_of_further. apply list_elem_of_here.
Defined.

(** *** The progress callback *)

(** Along any run whose reports are all positive, the callback sees the
    counter climb strictly from its start to its final value. *)
Lemma run_events_progress file_size run w sh :
  Forall bounded_step run →
  let st := run_events true file_size run (w, sh) in
  ∃ reports,
    progress st.1 = progress w ++ reports ∧
    Forall (λ p, p.2 = file_size) reports ∧
    StronglySorted Z.lt (downloaded_bytes sh :: (fst <$> reports)) ∧
    last (downloaded_bytes sh :: (fst <$> reports))
    = Some (downloaded_bytes st.2).
Proof.
  intros Hrun. revert w sh.
  induction Hrun as [|ev run Hev _ IH]; intros w sh st.
  - exists []. subst st. simpl. rewrite app_nil_r.
    repeat split; try done. repeat constructor.
  - subst st. rewrite run_events_cons.
    destruct (IH (apply_event true file_size (w, sh) ev).1
                 (apply_event true file_size (w, sh) ev).2)
      as (reports & Hp & Hall & Hsorted & Hlast).
    rewrite <- surjective_pairing in Hp, Hlast.
    destruct ev; simpl in Hev;
      try (exists reports; split; [exact Hp|];
           split; [exact Hall|]; split; [exact Hsorted|exact Hlast]).
    cbn [apply_event fst snd report progress downloaded_bytes] in *.
    exists ((downloaded_bytes sh + delta, file_size) :: reports).
    split; [by rewrite Hp, <- app_assoc|].
    split; [by constructor|]. rewrite fmap_cons. cbn [fst]. split.
    + constructor; [done|].
      apply StronglySorted_inv in Hsorted as [_ Hgt].
      constructor; [lia|].
      eapply Forall_impl; [exact Hgt|]. simpl. intros x. lia.
    + by rewrite last_cons_cons.
Qed.

Lemma sorted_last_bound a l z :
  StronglySorted Z.lt (a :: l) → last (a :: l) = Some z →
  a ≤ z ∧ Forall (λ x, a < x ≤ z) l.
Proof.
  revert a. induction l as [|b l IH]; intros a Hsorted Hlast.
  - simpl in Hlast. simplify_eq. split; [lia|constructor].
  - apply StronglySorted_inv in Hsorted as [Hs Hall].
    rewrite last_cons_cons in Hlast.
    destruct (IH b Hs Hlast) as [Hbz Hl].
    apply Forall_cons in Hall as [Hab Hall'].
    split; [lia|]. constructor; [lia|].
    eapply Forall_impl; [exact Hl|]. simpl. intros x. lia.
Qed.

(** X7. On a parallel transfer of degree [>= 1] with a progress callback,
    under every schedule and whether the transfer succeeds or fails, the
    callback is called with the file size as total and with a transferred
    count that is positive, strictly larger at every call, never above
    the file size, and at the last call equal to the final counter. *)
Theorem progress_reports_climb r local_path file_size chunks sched w :
  stat_result r = inr file_size →
  small_file_threshold ≤ file_size →
  1 ≤ chunks →
  let o := download_file true r local_path true chunks sched w in
  ∃ reports counter,
    progress (final o) = progress w ++ reports ∧
    downloaded_bytes <$> locals o = Some counter ∧
    counter ≤ file_size ∧
    Forall (λ p, p.2 = file_size ∧ 0 < p.1 ≤ counter) reports ∧
    StronglySorted Z.lt (fst <$> reports) ∧
    last (0 :: (fst <$> reports)) = Some counter.
Proof.
  intros Hstat Hbig Hchunks o.
  set (cs := file_size `div` chunks).
  set (traces := worker_traces r local_path file_size chunks cs).
  set (after := run_threads true file_size sched traces (w, mkShared [] [] 0)).
  assert (Hsize : 0 ≤ file_size) by (unfold small_file_threshold in Hbig; lia).
  (* what the threads leave *)
  assert (Hruns : ∃ reports,
    progress after.1 = progress w ++ reports ∧
    Forall (λ p, p.2 = file_size) reports ∧
    StronglySorted Z.lt (0 :: (fst <$> reports)) ∧
    last (0 :: (fst <$> reports)) = Some (downloaded_bytes after.2)).
  { subst after.
    destruct (run_threads_interleave true file_size sched traces
                (w, mkShared [] [] 0)) as (run & Hrun & ->).
    apply (run_events_progress file_size run w (mkShared [] [] 0)).
    rewrite (interleave_Permutation _ _ Hrun).
    apply Forall_concat, Forall_forall. intros tr Htr.
    apply list_elem_of_lookup in Htr as [k [_ ->]%worker_traces_lookup].
    apply download_chunk_bounded. }
  destruct Hruns as (reports & Hp & Htot & Hsorted & Hlast).
  pose proof (counter_after r local_path true file_size chunks sched w) as Hc.
  fold cs traces after in Hc.
  destruct (transferred_bound r local_path file_size chunks Hsize Hchunks)
    as [Hle _].
  destruct (sorted_last_bound _ _ _ Hsorted Hlast) as [_ Hbound].
  assert (Hfinal : progress (final o) = progress after.1 ∧
                   locals o = Some after.2).
  { subst o. rewrite (download_file_parallel r local_path true file_size chunks
                        sched w Hstat Hbig ltac:(lia)).
    fold cs traces after.
    destruct (errors after.2) as [|e l].
    - destruct (open_output_result (local_disk r)); [done|].
      destruct (reassemble _ _ _ _) as [m e].
      destruct (close_output _ _ _ _) as [m' [e'|]]; done.
    - split; [|done]. cbn [final].
      generalize (e :: l). intros errs. generalize after.1. intros w1.
      revert w1. induction errs as [|x errs IH]; intros w1; simpl; [done|].
      by rewrite IH. }
  destruct Hfinal as [Hprog Hloc].
  exists reports, (downloaded_bytes after.2).
  split; [by rewrite Hprog|]. split; [by rewrite Hloc|].
  split; [lia|]. split; [|split; [|done]].
  - apply Forall_forall. intros p Hin.
    rewrite Forall_forall in Htot. rewrite Forall_forall in Hbound.
    split; [by apply Htot|]. apply Hbound. by apply list_elem_of_fmap_2.
  - by apply StronglySorted_inv in Hsorted as [? _].
Qed.

Lemma progress_reports_climb_witness :
  let o := download_file true remote_three_bytes "f" true 2 [1; 0; 0]%nat
                         empty_world in
  ∃ reports counter,
    progress (final o) = progress empty_world ++ reports ∧
    downloaded_bytes <$> locals o = Some counter ∧
    counter ≤ 10485760 ∧
    Forall (λ p, p.2 = 10485760 ∧ 0 < p.1 ≤ counter) reports ∧
    StronglySorted Z.lt (fst <$> reports) ∧
    last (0 :: (fst <$> reports)) = Some counter.
Proof.
  apply (progress_reports_climb remote_three_bytes "f" 10485760 2
           [1; 0; 0]%nat empty_world).
  - reflexivity.
  - unfold small_file_threshold. lia.
  - lia.
Defined.

End ProgressFacts.

Module DegreeFacts.
Import Planner PlannerFacts Transfer TransferFacts Scenarios.

(** X8. In a plan of degree [>= 1] every range but the last is
    [file_size // chunks] bytes long, and the last is longer by the
    remainder of that division, so by fewer than [chunks] bytes. *)
Theorem range_lengths_differ_by_remainder file_size chunks i :
  1 ≤ chunks → 0 ≤ i < chunks →
  let len := range_len (chunk_args file_size chunks (file_size `div` chunks) i) in
  (i < chunks - 1 → len = file_size `div` chunks) ∧
  (i = chunks - 1 →
   len = file_size `div` chunks + file_size `mod` chunks ∧
   0 ≤ file_size `mod` chunks < chunks).
Proof.
  intros Hchunks Hi len. subst len. unfold range_len, chunk_args. simpl.
  pose proof (Z.div_mod file_size chunks ltac:(lia)) as Hdm.
  pose proof (Z.mod_pos_bound file_size chunks ltac:(lia)) as Hmod.
  split; intros Hcase.
  - rewrite decide_False by lia. lia.
  - rewrite decide_True by done. split; [nia|done].
Qed.

Lemma range_lengths_differ_by_remainder_witness :
  let len := range_len (chunk_args 25165826 4 (25165826 `div` 4) 3) in
  (3 < 4 - 1 → len = 25165826 `div` 4) ∧
  (3 = 4 - 1 →
   len = 25165826 `div` 4 + 25165826 `mod` 4 ∧ 0 ≤ 25165826 `mod` 4 < 4).
Proof.
  apply (range_lengths_differ_by_remainder 25165826 4 3); lia.
Defined.

Lemma run_threads_no_threads has_callback file_size sched st :
  run_threads has_callback file_size sched [] st = st.
Proof. induction sched as [|t sched IH]; simpl; done. Qed.

(** X9. A negative degree is not rejected: for a file at or above the
    threshold, [range(chunks)] is empty, so no worker is started, nothing
    is fetched and no session opened, and the reassembly step only opens
    and closes the destination. If neither raises, the destination is left
    empty and [download_file] returns [True] with nothing printed. If the
    open raises, the disk is as it was; if the close raises, the
    destination is there and empty; either way the failure is printed and
    [download_file] returns [False]. *)
Theorem negative_degree_leaves_empty_file
    r local_path has_callback file_size chunks sched w :
  stat_result r = inr file_size →
  small_file_threshold ≤ file_size →
  chunks < 0 →
  let o := download_file true r local_path has_callback chunks sched w in
  let failed e :=
    result o = false ∧
    console (final o)
    = console w ++ ["[red]❌ Download failed: " +:+ e +:+ "[/red]"] in
  match open_output_result (local_disk r), close_output_result (local_disk r) with
  | None, None =>
    result o = true ∧
    fs (final o) = <[local_path := []]> (fs w) ∧
    console (final o) = console w
  | None, Some (e, _) => failed e ∧ fs (final o) = <[local_path := []]> (fs w)
  | Some e, _ => failed e ∧ fs (final o) = fs w
  end ∧
  progress (final o) = progress w ∧
  open_sessions (final o) = open_sessions w ∧
  locals o = Some (mkShared [] [] 0).
Proof.
  intros Hstat Hbig Hneg o. subst o. unfold download_file.
  rewrite Hstat, decide_False by lia.
  unfold floordiv. rewrite decide_False by lia. simpl.
  unfold worker_traces, thread_args.
  rewrite seqZ_nil by lia. simpl.
  rewrite run_threads_no_threads. unfold close_output.
  destruct (open_output_result (local_disk r)); [done|].
  destruct (close_output_result (local_disk r)) as [[e n]|]; [|done].
  simpl. rewrite lookup_insert_eq. simpl. rewrite take_nil.
  by rewrite insert_insert_eq.
Qed.

Lemma negative_degree_leaves_empty_file_witness :
  let o := download_file true remote_eof "f" true (-2) [0; 1]%nat empty_world in
  (result o = true ∧
   fs (final o) = <["f" := []]> (fs empty_world) ∧
   console (final o) = console empty_world) ∧
  progress (final o) = progress empty_world ∧
  open_sessions (final o) = open_sessions empty_world ∧
  locals o = Some (mkShared [] [] 0).
Proof.
  exact (negative_degree_leaves_empty_file remote_eof "f" true 10485760 (-2)
           [0; 1]%nat empty_world eq_refl
           ltac:(unfold small_file_threshold; lia) ltac:(lia)).
Defined.

End DegreeFacts.

Module CacheOpsFacts.
Import Planner Listing PyFloat Cache CacheOps Scenarios FloatFacts.

Lemma ends_with_app suffix s : ends_with suffix (s +:+ suffix) = true.
Proof.
  induction s as [|c s IH]; simpl.
  - destruct suffix; simpl; [done|]. by rewrite decide_True.
  - case_decide; done.
Qed.

Lemma string_app_inj_r (s1 s2 t : string) : s1 +:+ t = s2 +:+ t → s1 = s2.
Proof.
  revert s2. induction s1 as [|c s1 IH]; intros [|c' s2] Heq.
  - done.
  - apply (f_equal String.length) in Heq.
    rewrite !TransferFacts.string_length_app in Heq. simpl in Heq. lia.
  - apply (f_equal String.length) in Heq.
    rewrite !TransferFacts.string_length_app in Heq. simpl in Heq. lia.
  - simpl in Heq. injection Heq as -> Heq. f_equal. by apply IH.
Qed.

Lemma lookup_foldr_delete {V} (l : list (string * V)) (m : gmap string V) n :
  foldr (λ kv m, delete kv.1 m) m l !! n
  = if decide (n ∈ l.*1) then None else m !! n.
Proof.
  induction l as [|[k v] l IH]; simpl; [done|].
  destruct (decide (k = n)) as [->|Hne].
  - rewrite lookup_delete_eq. by rewrite decide_True by (by left).
  - rewrite lookup_delete_ne by done. rewrite IH.
    destruct (decide (n ∈ l.*1)) as [Hin|Hnin].
    + by rewrite decide_True by (by right).
    + rewrite decide_False; [done|]. by intros [?|?]%elem_of_cons.
Qed.

Lemma glob_cache_names self n :
  n ∈ (glob_cache self).*1 ↔
  ends_with ".cache" n = true ∧ is_Some (cache_dir self !! n).
Proof.
  unfold glob_cache. rewrite list_elem_of_fmap. split.
  - intros ([k v] & -> & [Hk Hkv%elem_of_map_to_list]%list_elem_of_filter).
    simpl in *. eauto.
  - intros [Hn [v Hv]]. exists (n, v). split; [done|].
    apply list_elem_of_filter. split; [done|]. by apply elem_of_map_to_list.
Qed.

Lemma lookup_clear self n :
  cache_dir (clear self) !! n
  = if ends_with ".cache" n then None else cache_dir self !! n.
Proof.
  unfold clear. simpl. rewrite lookup_foldr_delete.
  destruct (decide (n ∈ (glob_cache self).*1)) as [Hin|Hnin].
  - apply glob_cache_names in Hin as [-> _]. done.
  - destruct (ends_with ".cache" n) eqn:Hn; [|done].
    destruct (cache_dir self !! n) as [v|] eqn:Hv; [|done].
    exfalso. apply Hnin, glob_cache_names. eauto.
Qed.

(** X10. After [clear], [get] misses for every path, whatever the hash
    and the clock; the statistics read zero files and zero bytes; and a
    file of the cache directory whose name does not end in [.cache] is
    still there. *)
Theorem clear_empties_the_cache md5_hexdigest st_size self :
  (∀ now path, get md5_hexdigest (clear self) now path = None) ∧
  get_stats st_size (clear self) = (0%nat, 0) ∧
  (∀ n, ends_with ".cache" n = false →
        cache_dir (clear self) !! n = cache_dir self !! n).
Proof.
  split; [|split].
  - intros now path. unfold get. rewrite lookup_clear.
    unfold cache_file_name. by rewrite ends_with_app.
  - assert (Hnil : glob_cache (clear self) = []).
    { destruct (glob_cache (clear self)) as [|[k v] l] eqn:Hl; [done|].
      assert (k ∈ (glob_cache (clear self)).*1) as Hk
        by (rewrite Hl; by left).
      apply glob_cache_names in Hk as [Hk [v' Hv']].
      rewrite lookup_clear, Hk in Hv'. done. }
    unfold get_stats. by rewrite Hnil.
  - intros n Hn. by rewrite lookup_clear, Hn.
Qed.

(** X11. A [set] for one path leaves the answer of [get] for another path
    as it was, unless the two paths hash to the same key; then the other
    path is answered from the entry just stored, since collisions are not
    told apart. *)
Theorem set_affects_one_key md5_hexdigest self t0 t1 path path' entries sizes :
  (md5_hexdigest path ≠ md5_hexdigest path' →
   get md5_hexdigest (set md5_hexdigest self t0 path entries sizes) t1 path'
   = get md5_hexdigest self t1 path') ∧
  (md5_hexdigest path = md5_hexdigest path' →
   get md5_hexdigest (set md5_hexdigest self t0 path entries sizes) t1 path'
   = get md5_hexdigest (set md5_hexdigest self t0 path entries sizes) t1 path).
Proof.
  split; intros Hkey.
  - unfold get, set. simpl. rewrite lookup_insert_ne; [done|].
    unfold cache_file_name, _get_cache_key. by intros ?%string_app_inj_r.
  - unfold get, cache_file_name, _get_cache_key. by rewrite Hkey.
Qed.

(** X12. Whenever [get] answers, it answers from the file stored under
    the path's key, and the age it reports is never above [max_age]; if
    the reading at the [get] is a float no smaller than the stored one,
    itself a positive float, and no larger than twice that one, the age is
    the number of whole seconds elapsed between the two readings. *)
Theorem get_reports_whole_seconds md5_hexdigest self now path entries age sizes :
  get md5_hexdigest self now path = Some (entries, age, sizes) →
  age ≤ max_age self ∧
  ∃ data,
    cache_dir self !! cache_file_name md5_hexdigest path = Some (Pickled data) ∧
    entries = files data ∧
    sizes = default ∅ (folder_sizes data) ∧
    (is_float now → is_float (timestamp data) →
     (0 < value (timestamp data))%Q →
     (value (timestamp data) <= value now)%Q →
     (value now <= 2 * value (timestamp data))%Q →
     0 ≤ age ∧
     (inject_Z age <= value now - value (timestamp data))%Q ∧
     (value now - value (timestamp data) < inject_Z (age + 1))%Q).
Proof.
  unfold get. intros Hget.
  destruct (cache_dir self !! _) as [[data|]|] eqn:Hfile; try done.
  destruct (fsub now (timestamp data)) as [d|] eqn:Hsub; [|done].
  destruct (Qlt_le_dec _ _) as [|Hle]; [done|]. simplify_eq.
  split; [by apply int_of_Q_le_Z|].
  exists data. split; [done|]. split; [done|]. split; [done|].
  intros Hnow Hts Hpos Hback Hfar.
  destruct (fsub_exact now (timestamp data) Hnow Hts Hpos) as (d' & Hsub' & Hd);
    [|done|].
  { lra. }
  rewrite Hsub in Hsub'. simplify_eq.
  apply (int_of_Q_whole _ _ Hd).
  by apply (proj1 (Qle_minus_iff _ _)).
Qed.

Lemma get_reports_whole_seconds_witness :
  let entries := to_file_info <$> same_second_listing in
  let t0 := mkFloat 7130316801048576 (-22) in
  let t1 := mkFloat 7130316845088768 (-22) in
  let self := set id (mkCache ∅ 300) t0 "/remote/dir" entries (Some ∅) in
  get id self t1 "/remote/dir" = Some (entries, 10, ∅) ∧
  10 ≤ max_age self ∧
  0 ≤ 10 ∧
  (inject_Z 10 <= value t1 - value t0)%Q ∧
  (value t1 - value t0 < inject_Z (10 + 1))%Q.
Proof.
  cbv zeta.
  assert (Hget : get id (set id (mkCache ∅ 300) (mkFloat 7130316801048576 (-22))
                           "/remote/dir" (to_file_info <$> same_second_listing)
                           (Some ∅))
                     (mkFloat 7130316845088768 (-22)) "/remote/dir"
                 = Some (to_file_info <$> same_second_listing, 10, ∅))
    by (vm_compute; reflexivity).
  split; [exact Hget|].
  destruct (get_reports_whole_seconds _ _ _ _ _ _ _ Hget)
    as (Hmax & data & Hfile & _ & _ & Hwhole).
  split; [exact Hmax|].
  unfold set in Hfile. simpl in Hfile. rewrite lookup_insert_eq in Hfile.
  injection Hfile as <-. simpl in Hwhole.
  apply Hwhole.
  - split; [reflexivity|simpl; lia].
  - split; [reflexivity|simpl; lia].
  - reflexivity.
  - vm_compute. discriminate.
  - vm_compute. discriminate.
Defined.

End CacheOpsFacts.

Module DisplayFacts.
Import Display.

(** X13. [format_time] shows an age of less than an hour without loss:
    from one minute on, the minutes and seconds shown are in range and add
    up to the age. From one hour on it shows hours and minutes only, so the
    age is known to the minute. *)
Theorem format_time_parts seconds :
  (60 ≤ seconds < 3600 →
   ∃ m s, format_time seconds = pretty m +:+ "m " +:+ pretty s +:+ "s" ∧
          1 ≤ m < 60 ∧ 0 ≤ s < 60 ∧ seconds = 60 * m + s) ∧
  (3600 ≤ seconds →
   ∃ h m, format_time seconds = pretty h +:+ "h " +:+ pretty m +:+ "m" ∧
          1 ≤ h ∧ 0 ≤ m < 60 ∧
          3600 * h + 60 * m ≤ seconds < 3600 * h + 60 * (m + 1)).
Proof.
  pose proof (Z.div_mod seconds 60 ltac:(lia)) as Hs.
  pose proof (Z.mod_pos_bound seconds 60 ltac:(lia)) as Hsm.
  pose proof (Z.div_mod (seconds `div` 60) 60 ltac:(lia)) as Hm.
  pose proof (Z.mod_pos_bound (seconds `div` 60) 60 ltac:(lia)) as Hmm.
  unfold format_time. split; intros Hrange.
  - rewrite decide_False by lia. rewrite decide_True by lia.
    exists (seconds `div` 60), (seconds `mod` 60). repeat split; lia.
  - rewrite decide_False by lia. rewrite decide_False by lia.
    exists ((seconds `div` 60) `div` 60), ((seconds `div` 60) `mod` 60).
    repeat split; lia.
Qed.

End DisplayFacts.

Module DirSizeFacts.
Import Planner DirSize.

Lemma scan_entry_dir filename entries total :
  scan_entry (RDir filename (Some entries)) total
  = foldl (λ t e, scan_entry e t) total entries.
Proof.
  simpl. revert total. induction entries as [|e es IH]; intros total; simpl.
  - done.
  - by rewrite IH.
Qed.

Lemma remote_entry_ind (P : remote_entry → Prop) :
  (∀ filename size, P (RFile filename size)) →
  (∀ filename, P (RDir filename None)) →
  (∀ filename entries, Forall P entries → P (RDir filename (Some entries))) →
  ∀ e, P e.
Proof.
  intros Hfile Hnone Hdir. fix IH 1.
  intros [filename size|filename [entries|]]; [apply Hfile| |apply Hnone].
  apply Hdir. induction entries as [|e es IHes]; constructor;
    [apply IH|apply IHes].
Qed.

Lemma scan_entries_add entries total :
  Forall (λ e, ∀ t, scan_entry e t = t + entry_size true e) entries →
  foldl (λ t e, scan_entry e t) total entries
  = total + sum_list_Z (entry_size true <$> entries).
Proof.
  intros Hall. revert total.
  induction Hall as [|e es He _ IH]; intros total.
  - unfold sum_list_Z. simpl. lia.
  - cbn [foldl]. rewrite IH, He.
    change (sum_list_Z (entry_size true <$> e :: es))
      with (entry_size true e + sum_list_Z (entry_size true <$> es)). lia.
Qed.

(** Scanning an entry adds the entry's own count to the total. *)
Lemma scan_entry_adds e :
  ∀ total, scan_entry e total = total + entry_size true e.
Proof.
  induction e as [filename size|filename|filename entries IH]
    using remote_entry_ind; intros total.
  - done.
  - simpl. lia.
  - rewrite scan_entry_dir, scan_entries_add by done.
    cbn [entry_size get_directory_size scan_dir].
    rewrite scan_entries_add by done. lia.
Qed.

(** X14. The size of a directory is the sum, over the entries of its
    listing, of the size of each file and of the directory size of each
    subdirectory; a directory whose listing raises counts for nothing and
    takes nothing away from the rest; without a connection the size is 0. *)
Theorem directory_size_is_sum_of_entries connected listing :
  get_directory_size connected listing
  = match connected, listing with
    | true, Some entries => sum_list_Z (entry_size true <$> entries)
    | _, _ => 0
    end.
Proof.
  destruct connected, listing as [entries|]; try done.
  cbn [get_directory_size scan_dir].
  rewrite scan_entries_add; [lia|].
  apply Forall_forall. intros e _. apply scan_entry_adds.
Qed.

End DirSizeFacts.

Module SelectionFacts.
Import PyStr Selection.

Section membership.
Variable int_max_str_digits : Z.
Context {A : Type}.
Implicit Types (files : list A).

Lemma select_index_elem files i f : f ∈ select_index files i → f ∈ files.
Proof.
  unfold select_index. case_decide; [|by intros ?%elem_of_nil].
  destruct (files !! _) as [f'|] eqn:Hf; [|by intros ?%elem_of_nil].
  intros ->%list_elem_of_singleton. by eapply list_elem_of_lookup_2.
Qed.

Lemma select_part_elem files part more f :
  select_part int_max_str_digits files part = Some more → f ∈ more → f ∈ files.
Proof.
  unfold select_part.
  destruct (contains _ _).
  - destruct (split_on _ _) as [|start [|end_ [|? ?]]];
      try (intros [= <-] ?%elem_of_nil; done).
    destruct (int_of_string int_max_str_digits start) as [a|],
      (int_of_string int_max_str_digits end_) as [b|];
      try (intros [= <-] ?%elem_of_nil; done).
    intros [= <-] (i & Hf & _)%list_elem_of_bind. by eapply select_index_elem.
  - destruct (isdigit _); [|intros [= <-] ?%elem_of_nil; done].
    destruct (int_of_string int_max_str_digits _) as [idx|]; [|done].
    intros [= <-]. apply select_index_elem.
Qed.

Lemma select_parts_elem files parts selected result f :
  select_parts int_max_str_digits files parts selected = Some result →
  (∀ g, g ∈ selected → g ∈ files) →
  f ∈ result → f ∈ files.
Proof.
  revert selected. induction parts as [|part parts IH]; intros selected; simpl.
  - intros [= <-] Hsel. apply Hsel.
  - destruct (select_part _ files part) as [more|] eqn:Hpart; [|done].
    intros Hrest Hsel. eapply IH; [exact Hrest|].
    intros g [?|?]%elem_of_app; [by apply Hsel|by eapply select_part_elem].
Qed.

Lemma select_parts_selected files parts selected :
  select_parts int_max_str_digits files parts selected
  = (selected ++.) <$> select_parts int_max_str_digits files parts [].
Proof.
  revert selected. induction parts as [|part parts IH]; intros selected; simpl.
  - by rewrite app_nil_r.
  - destruct (select_part _ files part) as [more|]; [|done].
    rewrite (IH (selected ++ more)), (IH more).
    destruct (select_parts _ files parts []) as [rest|]; [|done].
    simpl. by rewrite app_assoc.
Qed.

Lemma select_parts_app files parts1 parts2 :
  select_parts int_max_str_digits files (parts1 ++ parts2) []
  = sel1 ← select_parts int_max_str_digits files parts1 [];
    sel2 ← select_parts int_max_str_digits files parts2 [];
    Some (sel1 ++ sel2).
Proof.
  induction parts1 as [|part parts1 IH]; simpl.
  - by destruct (select_parts _ files parts2 []).
  - destruct (select_part _ files part) as [more|]; [|done]. simpl.
    rewrite select_parts_selected, IH.
    rewrite (select_parts_selected files parts1 more).
    destruct (select_parts _ files parts1 []) as [sel1|]; [|done]. simpl.
    destruct (select_parts _ files parts2 []) as [sel2|]; [|done]. simpl.
    by rewrite app_assoc.
Qed.
End membership.

Lemma split_on_cons sep s : ∃ piece pieces, split_on sep s = piece :: pieces.
Proof.
  destruct s as [|c s]; simpl; [eauto|].
  case_decide; [eauto|]. destruct (split_on sep s); eauto.
Qed.

(** Splitting a string with a separator in it splits both sides. *)
Lemma split_on_app sep s1 s2 :
  split_on sep (s1 +:+ String sep s2) = split_on sep s1 ++ split_on sep s2.
Proof.
  induction s1 as [|c s1 IH]; simpl.
  - by rewrite decide_True.
  - case_decide; [by rewrite IH|]. rewrite IH.
    destruct (split_on_cons sep s1) as (piece & pieces & ->). done.
Qed.

(** X15. [parse_selection] never selects anything that is not in the
    listing: whatever is typed, each entry it returns is an entry of
    [files]. *)
Theorem selection_is_from_the_listing {A} int_max_str_digits choice
    (files selected : list A) f :
  parse_selection int_max_str_digits choice files = Some selected →
  f ∈ selected → f ∈ files.
Proof.
  unfold parse_selection. intros Hsel. eapply select_parts_elem; [exact Hsel|].
  by intros g ?%elem_of_nil.
Qed.

Lemma selection_is_from_the_listing_witness :
  "c" ∈ ["a"; "b"; "c"; "d"; "e"].
Proof.
  apply (selection_is_from_the_listing 4300 "1,3-4, 9 ,2 - 3,x"
           ["a"; "b"; "c"; "d"; "e"] ["a"; "c"; "d"; "b"; "c"] "c").
  - vm_compute. reflexivity.
  - apply list_elem_of_further, list_elem_of_here.
Defined.

(** X16. The comma joins selections: what [a,b] selects is what [a]
    selects followed by what [b] selects, repeats included, and it raises
    exactly when one of the two does. *)
Theorem selection_of_comma_list {A} int_max_str_digits a b (files : list A) :
  parse_selection int_max_str_digits (a +:+ "," +:+ b) files
  = sel_a ← parse_selection int_max_str_digits a files;
    sel_b ← parse_selection int_max_str_digits b files;
    Some (sel_a ++ sel_b).
Proof.
  unfold parse_selection.
  change (a +:+ "," +:+ b) with (a +:+ String "," b).
  by rewrite split_on_app, select_parts_app.
Qed.

(** *** Numbers as they are typed *)

Lemma decimal_char c :
  is_decimal c = true →
  is_space c = false ∧ is_int_space c = false ∧ is_digit_char c = true ∧
  c ≠ "-"%char ∧ c ≠ ","%char.
Proof.
  destruct c as [[] [] [] [] [] [] [] []]; vm_compute; intros Hc;
    try discriminate Hc; repeat split; discriminate.
Qed.

Lemma pretty_N_char_decimal d : is_decimal (pretty_N_char d) = true.
Proof. unfold pretty_N_char. by repeat case_match. Qed.

Lemma pretty_N_char_value d :
  (d < 10)%N → digit_value (pretty_N_char d) = Z.of_N d.
Proof.
  intros Hd.
  assert (d = 0 ∨ d = 1 ∨ d = 2 ∨ d = 3 ∨ d = 4 ∨ d = 5 ∨ d = 6 ∨ d = 7
          ∨ d = 8 ∨ d = 9)%N as Hcases by lia.
  repeat (destruct Hcases as [->|Hcases]; [done|]). by subst.
Qed.

Lemma pretty_N_go_decimal x s :
  all_chars is_decimal (pretty_N_go x s) = all_chars is_decimal s.
Proof.
  revert s. induction (N.lt_wf_0 x) as [x _ IH]; intros s.
  assert (x = 0 ∨ 0 < x)%N as [->|Hx] by lia; [done|].
  rewrite pretty_N_go_step by done.
  rewrite IH by (by apply N.div_lt). simpl.
  by rewrite pretty_N_char_decimal.
Qed.

Lemma pretty_N_go_parse x s :
  (0 < x)%N →
  parse_digits 0 true (pretty_N_go x s) = parse_digits (Z.of_N x) false s.
Proof.
  revert s. induction (N.lt_wf_0 x) as [x _ IH]; intros s Hx.
  rewrite pretty_N_go_step by done.
  pose proof (N.div_mod x 10 ltac:(done)) as Hdm.
  pose proof (N.mod_lt x 10 ltac:(done)) as Hmod.
  assert (x `div` 10 = 0 ∨ 0 < x `div` 10)%N as [Hq|Hq] by lia.
  - rewrite Hq, pretty_N_go_0. simpl.
    rewrite pretty_N_char_decimal, pretty_N_char_value by done.
    f_equal. lia.
  - rewrite IH by (done || by apply N.div_lt). simpl.
    rewrite pretty_N_char_decimal, pretty_N_char_value by done.
    f_equal. lia.
Qed.

(** What a non-negative integer looks like when printed: decimal digits,
    at least one, which read back as the integer. *)
Lemma pretty_nonneg z :
  0 ≤ z →
  all_chars is_decimal (pretty z) = true ∧
  pretty z ≠ EmptyString ∧
  parse_digits 0 true (pretty z) = Some z.
Proof.
  intros Hz. destruct z as [|x|x]; [done| |lia].
  change (pretty (Z.pos x)) with (pretty_N_go (N.pos x) "").
  pose proof (pretty_N_go_parse (N.pos x) "" ltac:(lia)) as Hparse.
  split; [by rewrite pretty_N_go_decimal|]. split; [|done].
  intros Hnil. by rewrite Hnil in Hparse.
Qed.

Lemma strip_by_decimal f s :
  (∀ c, is_decimal c = true → f c = false) →
  all_chars is_decimal s = true →
  lstrip_by f s = s ∧ rstrip_by f s = s.
Proof.
  intros Hf. induction s as [|c s IH]; simpl; [done|].
  intros [Hc Hs]%andb_true_iff. rewrite (Hf c Hc). split; [done|].
  destruct (IH Hs) as [_ ->]. by destruct s.
Qed.

Lemma contains_decimal c0 s :
  is_decimal c0 = false → all_chars is_decimal s = true → contains c0 s = false.
Proof.
  intros Hc0. induction s as [|c s IH]; simpl; [done|].
  intros [Hc Hs]%andb_true_iff. rewrite IH by done.
  rewrite bool_decide_eq_false_2; [done|]. intros ->. congruence.
Qed.

Lemma contains_app c s1 s2 :
  contains c (s1 +:+ s2) = contains c s1 || contains c s2.
Proof. induction s1 as [|c1 s1 IH]; simpl; [done|]. by rewrite IH, orb_assoc. Qed.

Lemma split_on_absent sep s : contains sep s = false → split_on sep s = [s].
Proof.
  induction s as [|c s IH]; simpl; [done|].
  intros [Hc Hs]%orb_false_iff. apply bool_decide_eq_false in Hc.
  rewrite decide_False by done. by rewrite IH.
Qed.

Lemma count_decimal_le s : count_decimal s ≤ Z.of_nat (String.length s).
Proof. induction s as [|c s IH]; simpl; [done|]. destruct (is_decimal c); lia. Qed.

Lemma all_chars_app f s1 s2 :
  all_chars f (s1 +:+ s2) = all_chars f s1 && all_chars f s2.
Proof. induction s1 as [|c s1 IH]; simpl; [done|]. by rewrite IH, andb_assoc. Qed.

Lemma int_of_string_decimal lim s :
  all_chars is_decimal s = true →
  int_of_string lim s = parse_unsigned lim s.
Proof.
  intros Hs. unfold int_of_string.
  destruct (strip_by_decimal is_int_space s) as [Hl Hr];
    [intros c Hc; by apply decimal_char|done|].
  rewrite Hl, Hr. destruct s as [|c s]; [done|].
  simpl in Hs. apply andb_true_iff in Hs as [Hc _].
  destruct c as [[] [] [] [] [] [] [] []]; try done.
Qed.

(** [int] reads a printed non-negative integer back, when it is within
    the digit limit. *)
Lemma int_of_pretty lim z :
  0 ≤ z →
  lim ≤ 0 ∨ Z.of_nat (String.length (pretty z)) ≤ lim →
  int_of_string lim (pretty z) = Some z.
Proof.
  intros Hz Hlim. destruct (pretty_nonneg z Hz) as (Hdec & _ & Hparse).
  rewrite int_of_string_decimal by done. unfold parse_unsigned.
  pose proof (count_decimal_le (pretty z)).
  rewrite decide_False by lia. done.
Qed.

Lemma isdigit_pretty z : 0 ≤ z → isdigit (pretty z) = true.
Proof.
  intros Hz. destruct (pretty_nonneg z Hz) as (Hdec & Hne & _).
  unfold isdigit. destruct (pretty z) as [|c s]; [done|].
  clear Hne. revert Hdec. generalize (String c s). intros s'.
  induction s' as [|c' s' IH]; simpl; [done|].
  intros [Hc Hs]%andb_true_iff.
  rewrite IH by done. by destruct (decimal_char c' Hc) as (_ & _ & -> & _).
Qed.

Lemma rstrip_by_cons f c s :
  rstrip_by f s = s → f c = false → rstrip_by f (String c s) = String c s.
Proof. intros Hs Hc. cbn [rstrip_by]. rewrite Hs, Hc. by destruct s. Qed.

Lemma strip_pretty_range a b :
  0 ≤ a → 0 ≤ b →
  strip (pretty a +:+ "-" +:+ pretty b) = pretty a +:+ "-" +:+ pretty b.
Proof.
  intros Ha Hb.
  destruct (pretty_nonneg a Ha) as (Hda & Hna & _).
  destruct (pretty_nonneg b Hb) as (Hdb & Hnb & _).
  unfold strip.
  assert (Hl : lstrip_by is_space (pretty a +:+ "-" +:+ pretty b)
               = pretty a +:+ "-" +:+ pretty b).
  { destruct (pretty a) as [|c s]; [done|]. simpl in *.
    apply andb_true_iff in Hda as [Hc _].
    by destruct (decimal_char c Hc) as (-> & _). }
  rewrite Hl. clear Hl Hna.
  change ("-" +:+ pretty b) with (String "-" (pretty b)).
  assert (Hr : rstrip_by is_space (String "-" (pretty b)) = String "-" (pretty b)).
  { apply rstrip_by_cons; [|done].
    apply strip_by_decimal; [|done]. intros c Hc. by apply decimal_char. }
  revert Hda. generalize (pretty a). intros s.
  induction s as [|c s IH]; [intros _; exact Hr|].
  cbn [all_chars]. intros [Hc Hs]%andb_true_iff.
  change (String c s +:+ String "-" (pretty b))
    with (String c (s +:+ String "-" (pretty b))).
  apply rstrip_by_cons; [by apply IH|by apply decimal_char].
Qed.

Section positions.
Context {A : Type}.
Implicit Types (files : list A).

Lemma select_index_position files i :
  1 ≤ i → select_index files i = take 1 (drop (Z.to_nat (i - 1)) files).
Proof.
  intros Hi. unfold select_index.
  destruct (files !! Z.to_nat (i - 1)) as [f|] eqn:Hf.
  - rewrite decide_True by (apply lookup_lt_Some in Hf; lia).
    rewrite (take_S_r _ 0 f); [by rewrite take_0|].
    by rewrite lookup_drop, Nat.add_0_r.
  - apply lookup_ge_None in Hf. rewrite drop_ge by done.
    by case_decide.
Qed.

Lemma select_range files a (n : nat) :
  1 ≤ a →
  seqZ a (Z.of_nat n) ≫= select_index files
  = take n (drop (Z.to_nat (a - 1)) files).
Proof.
  intros Ha. induction n as [|n IH]; [by rewrite take_0|].
  rewrite seqZ_S, bind_app, IH, bind_singleton.
  rewrite select_index_position by lia.
  replace (Z.to_nat (a + Z.of_nat n - 1)) with (Z.to_nat (a - 1) + n)%nat by lia.
  rewrite <- drop_drop.
  by rewrite take_take_drop, Nat.add_1_r.
Qed.
End positions.

(** X17. Numbers typed in decimal select by position. A number [a >= 1]
    selects the entry at position [a], or nothing when the listing is
    shorter; [a-b] selects the entries at positions [a] to [b] in listing
    order, stopping at the end of the listing, and nothing when [b < a].
    (The numbers are within the interpreter's digit limit, if there is
    one.) *)
Theorem typed_numbers_select_by_position {A} lim (files : list A) a b :
  1 ≤ a → 0 ≤ b →
  lim ≤ 0 ∨ (Z.of_nat (String.length (pretty a)) ≤ lim ∧
             Z.of_nat (String.length (pretty b)) ≤ lim) →
  parse_selection lim (pretty a) files
  = Some (take 1 (drop (Z.to_nat (a - 1)) files)) ∧
  parse_selection lim (pretty a +:+ "-" +:+ pretty b) files
  = Some (take (Z.to_nat (b + 1 - a)) (drop (Z.to_nat (a - 1)) files)).
Proof.
  intros Ha Hb Hlim.
  destruct (pretty_nonneg a ltac:(lia)) as (Hda & Hna & _).
  destruct (pretty_nonneg b Hb) as (Hdb & Hnb & _).
  assert (Hcomma : ∀ z, 0 ≤ z → contains "," (pretty z) = false).
  { intros z Hz. apply contains_decimal; [done|]. by apply pretty_nonneg. }
  assert (Hdash : ∀ z, 0 ≤ z → contains "-" (pretty z) = false).
  { intros z Hz. apply contains_decimal; [done|]. by apply pretty_nonneg. }
  split.
  - unfold parse_selection. rewrite split_on_absent by (apply Hcomma; lia).
    simpl. unfold select_part.
    destruct (strip_by_decimal is_space (pretty a)) as [Hl Hr];
      [intros c Hc; by apply decimal_char|done|].
    unfold strip. rewrite Hl, Hr, Hdash by lia.
    rewrite isdigit_pretty, int_of_pretty by (lia || tauto). simpl.
    by rewrite select_index_position.
  - unfold parse_selection.
    assert (Hnocomma : contains "," (pretty a +:+ "-" +:+ pretty b) = false).
    { rewrite !contains_app, !Hcomma by lia. done. }
    rewrite split_on_absent by done. simpl. unfold select_part.
    rewrite strip_pretty_range by lia.
    assert (Hhas : contains "-" (pretty a +:+ "-" +:+ pretty b) = true).
    { rewrite !contains_app, !Hdash by lia. done. }
    rewrite Hhas.
    change (pretty a +:+ "-" +:+ pretty b) with (pretty a +:+ String "-" (pretty b)).
    rewrite split_on_app, !split_on_absent by (apply Hdash; lia). simpl.
    rewrite !int_of_pretty by (lia || tauto).
    f_equal.
    destruct (decide (a ≤ b + 1)) as [Hab|Hab].
    + replace (b + 1 - a) with (Z.of_nat (Z.to_nat (b + 1 - a))) at 1 by lia.
      by apply select_range.
    + rewrite seqZ_nil by lia.
      replace (Z.to_nat (b + 1 - a)) with 0%nat by lia. by rewrite take_0.
Qed.

Lemma typed_numbers_select_by_position_witness :
  parse_selection 4300 (pretty 2) ["a"; "b"; "c"; "d"; "e"]
  = Some (take 1 (drop (Z.to_nat (2 - 1)) ["a"; "b"; "c"; "d"; "e"])) ∧
  parse_selection 4300 (pretty 2 +:+ "-" +:+ pretty 4) ["a"; "b"; "c"; "d"; "e"]
  = Some (take (Z.to_nat (4 + 1 - 2))
               (drop (Z.to_nat (2 - 1)) ["a"; "b"; "c"; "d"; "e"])).
Proof.
  apply (typed_numbers_select_by_position 4300 ["a"; "b"; "c"; "d"; "e"] 2 4).
  - lia.
  - lia.
  - right. vm_compute. split; discriminate.
Defined.

End SelectionFacts.

Module BrowseFacts.
Import Listing PyStr Selection Browse.

Lemma filter_files_only (l : list file_info) f :
  f ∈ filter (λ f, is_dir f = false) l ↔ f ∈ l ∧ is_dir f = false.
Proof. rewrite list_elem_of_filter. tauto. Qed.

(** X18. Whatever is typed at the prompt, what the browser hands to
    [download_files] is a non-empty list of entries of the listing none of
    which is a directory, and the only directory it enters is one of the
    listing; the same holds for the choice [all]. Directories selected along
    with files are dropped without a message. *)
Theorem downloads_are_listed_files int_max_str_digits choice files :
  match select_typed int_max_str_digits choice files with
  | Download selected =>
    selected ≠ [] ∧ ∀ f, f ∈ selected → f ∈ files ∧ is_dir f = false
  | Navigate dir =>
    ∃ f, f ∈ files ∧ is_dir f = true ∧ name f = dir
  | _ => True
  end ∧
  match select_all files with
  | Download selected =>
    selected ≠ [] ∧ ∀ f, f ∈ selected ↔ f ∈ files ∧ is_dir f = false
  | NoFiles => ∀ f, f ∈ files → is_dir f = true
  | _ => False
  end.
Proof.
  split.
  - unfold select_typed.
    destruct (parse_selection _ choice files) as [selected|] eqn:Hsel; [|done].
    assert (Hin : ∀ f, f ∈ selected → f ∈ files).
    { intros f. eapply SelectionFacts.select_parts_elem; [exact Hsel|].
      by intros g ?%elem_of_nil. }
    destruct selected as [|first rest]; [done|].
    destruct (bool_decide _ && is_dir first) eqn:Hone.
    + apply andb_prop in Hone as [_ Hdir].
      exists first. split; [apply Hin, list_elem_of_here|done].
    + destruct (filter _ (first :: rest)) as [|g only] eqn:Hfilter; [done|].
      split; [done|]. intros f Hf. rewrite <- Hfilter in Hf.
      apply filter_files_only in Hf as [Hf ?]. split; [by apply Hin|done].
  - unfold select_all.
    destruct (filter _ files) as [|g only] eqn:Hfilter.
    + intros f Hf. destruct (is_dir f) eqn:Hdir; [done|].
      assert (Hin : f ∈ filter (λ f, is_dir f = false) files)
        by by apply filter_files_only.
      rewrite Hfilter in Hin. by apply elem_of_nil in Hin.
    + split; [done|]. intros f. rewrite <- Hfilter. apply filter_files_only.
Qed.

End BrowseFacts.

Module SettingsFacts.
Import Planner Transfer PyStr Settings.

(** X19. The in-memory half of [set_bool] round-trips through [get_bool]:
    after [set_bool(key, value)] the key reads as [value] whatever the
    default, and every other key reads as before, also through [get] and
    [get_int]. *)
Theorem set_bool_then_get_bool lim data key value key' :
  key' ≠ key →
  (∀ d, get_bool (set_bool_data data key value) key d = value) ∧
  (∀ d, get_bool (set_bool_data data key value) key' d = get_bool data key' d) ∧
  (∀ d, get (set_bool_data data key value) key' d = get data key' d) ∧
  (∀ d, get_int lim (set_bool_data data key value) key' d
        = get_int lim data key' d).
Proof.
  intros Hne. unfold get_bool, get, get_int, set_bool_data.
  rewrite lookup_insert_eq, !lookup_insert_ne by done.
  split; [|done]. intros d. by destruct value.
Qed.

Lemma set_bool_then_get_bool_witness :
  (∀ d, get_bool (set_bool_data {[ "SHOW_FOLDER_SIZES" := "Yes" ]}
                    "SHOW_FOLDER_SIZES" false) "SHOW_FOLDER_SIZES" d = false) ∧
  (∀ d, get_bool (set_bool_data {[ "SHOW_FOLDER_SIZES" := "Yes" ]}
                    "SHOW_FOLDER_SIZES" false) "DOWNLOAD_CHUNKS" d
        = get_bool {[ "SHOW_FOLDER_SIZES" := "Yes" ]} "DOWNLOAD_CHUNKS" d) ∧
  (∀ d, get (set_bool_data {[ "SHOW_FOLDER_SIZES" := "Yes" ]}
               "SHOW_FOLDER_SIZES" false) "DOWNLOAD_CHUNKS" d
        = get {[ "SHOW_FOLDER_SIZES" := "Yes" ]} "DOWNLOAD_CHUNKS" d) ∧
  (∀ d, get_int 4300 (set_bool_data {[ "SHOW_FOLDER_SIZES" := "Yes" ]}
                        "SHOW_FOLDER_SIZES" false) "DOWNLOAD_CHUNKS" d
        = get_int 4300 {[ "SHOW_FOLDER_SIZES" := "Yes" ]} "DOWNLOAD_CHUNKS" d).
Proof.
  apply (set_bool_then_get_bool 4300 {[ "SHOW_FOLDER_SIZES" := "Yes" ]}
           "SHOW_FOLDER_SIZES" false "DOWNLOAD_CHUNKS").
  discriminate.
Defined.

Lemma download_path_named data i :
  Forall (λ entry, entry.1 ≠ "" ∧ entry.2 ≠ "" ∧
                   data !! ("DOWNLOAD_PATH_" +:+ pretty i) = Some entry.2 ∧
                   (data !! ("PATH_" +:+ pretty i +:+ "_NAME") = Some entry.1 ∨
                    entry.1 = "Path " +:+ pretty i))
         (download_path data i).
Proof.
  unfold download_path, get.
  destruct (data !! ("DOWNLOAD_PATH_" +:+ pretty i)) as [[|c path]|] eqn:Hpath;
    simpl; [done| |done].
  apply Forall_singleton. simpl.
  destruct (data !! ("PATH_" +:+ pretty i +:+ "_NAME")) as [[|c' nm]|];
    simpl; eauto 6.
Qed.

(** X20. [get_download_paths] returns at most five pairs, each with a
    non-empty name and a non-empty path: the path is the value of
    [DOWNLOAD_PATH_i] for some [i] from 1 to 5, and the name is the value of
    [PATH_i_NAME] or, where that is missing or empty, [Path i]. *)
Theorem download_paths_are_named data :
  (length (get_download_paths data) ≤ 5)%nat ∧
  Forall (λ entry, entry.1 ≠ "" ∧ entry.2 ≠ "" ∧
            ∃ i, 1 ≤ i ≤ 5 ∧
              data !! ("DOWNLOAD_PATH_" +:+ pretty i) = Some entry.2 ∧
              (data !! ("PATH_" +:+ pretty i +:+ "_NAME") = Some entry.1 ∨
               entry.1 = "Path " +:+ pretty i))
         (get_download_paths data).
Proof.
  unfold get_download_paths. split.
  - assert (Hlen : ∀ i, (length (download_path data i) ≤ 1)%nat).
    { intros i. unfold download_path. destruct (get data _ ""); simpl; lia. }
    change (seqZ 1 5) with [1; 2; 3; 4; 5]. simpl.
    rewrite !length_app, length_nil.
    pose proof (Hlen 1). pose proof (Hlen 2). pose proof (Hlen 3).
    pose proof (Hlen 4). pose proof (Hlen 5). lia.
  - apply Forall_bind, Forall_forall. intros i Hi%elem_of_seqZ.
    eapply Forall_impl; [apply download_path_named|].
    intros entry (? & ? & ? & ?). split; [done|]. split; [done|].
    exists i. split; [lia|]. done.
Qed.

(** X21. The degree is taken from the configuration unchecked. Where
    [DOWNLOAD_CHUNKS] holds a text that [int] reads as zero, every download
    of a file at or above the threshold returns [False] with the division
    error printed and nothing else changed; where the key is missing, or
    holds a text [int] rejects, the degree is 8. *)
Theorem configured_zero_degree_fails
    lim data text r local_path has_callback sched w file_size :
  data !! "DOWNLOAD_CHUNKS" = Some text →
  int_of_string lim text = Some 0 →
  stat_result r = inr file_size →
  small_file_threshold ≤ file_size →
  download_file true r local_path has_callback (configured_chunks lim data)
                sched w
  = mkOutcome false
      (print ("[red]❌ Download failed: " +:+ ZeroDivisionError +:+ "[/red]") w)
      None ∧
  configured_chunks lim (delete "DOWNLOAD_CHUNKS" data) = 8 ∧
  (∀ text', int_of_string lim text' = None →
            configured_chunks lim (<["DOWNLOAD_CHUNKS" := text']> data) = 8).
Proof.
  intros Hdata Hzero Hstat Hbig. unfold configured_chunks, get_int.
  rewrite Hdata, Hzero, lookup_delete_eq. simpl. split; [|split; [done|]].
  - unfold download_file. rewrite Hstat. by rewrite decide_False by lia.
  - intros text' Hbad. by rewrite lookup_insert_eq, Hbad.
Qed.

Lemma configured_zero_degree_fails_witness :
  download_file true Scenarios.remote_eof "f" true
                (configured_chunks 4300 {[ "DOWNLOAD_CHUNKS" := " +0_0 " ]})
                [] Scenarios.empty_world
  = mkOutcome false
      (print ("[red]❌ Download failed: " +:+ ZeroDivisionError +:+ "[/red]")
             Scenarios.empty_world)
      None ∧
  configured_chunks 4300
    (delete "DOWNLOAD_CHUNKS" {[ "DOWNLOAD_CHUNKS" := " +0_0 " ]}) = 8 ∧
  (∀ text', int_of_string 4300 text' = None →
            configured_chunks 4300
              (<["DOWNLOAD_CHUNKS" := text']> {[ "DOWNLOAD_CHUNKS" := " +0_0 " ]})
            = 8).
Proof.
  apply (configured_zero_degree_fails 4300 {[ "DOWNLOAD_CHUNKS" := " +0_0 " ]}
           " +0_0 " Scenarios.remote_eof "f" true [] Scenarios.empty_world
           10485760).
  - reflexivity.
  - vm_compute. reflexivity.
  - reflexivity.
  - unfold small_file_threshold. lia.
Defined.

End SettingsFacts.
